(** * openmap: the presence hub of the WebSocket server (main.go)

    A shallow embedding of [Hub], [Client] and the functions of main.go
    that drive them: [newHub], [Hub.run], [Hub.sendCurrentLocations],
    [Hub.broadcastMessage], [Hub.updateLocation], [Client.writePump],
    [Client.readPump] and [handleWebSocket].

    Go's runtime objects are part of the state: buffered channels (the
    [Send] queue of every client), the unbuffered [h.broadcast] channel,
    the [sync.RWMutex] and the log.  A function of main.go is a
    computation over that state which ends normally, panics, or blocks. *)

From Stdlib Require Import ZArith Ascii String List Bool.
From Stdlib Require Import Floats.PrimFloat Floats.SpecFloat Floats.FloatOps.
From stdpp Require Import gmap strings list fin_maps.

Local Open Scope string_scope.

(** ** Data of main.go *)

(** [type LocationData struct]: float64 is Rocq's binary64 [float],
    int64 a [Z]. *)
Module LocationData.
Record t : Type := mk {
  Username : string;
  Latitude : float;
  Longitude : float;
  Timestamp : Z
}.
End LocationData.

(** [Message.Data] is an [interface{}]; main.go stores three kinds of
    values in it. *)
Inductive Data : Type :=
| DataStrings (m : gmap string string)
| DataLocations (m : gmap string LocationData.t)
| DataLocation (l : LocationData.t).

(** [type Message struct] *)
Module Message.
Record t : Type := mk {
  Type_ : string;
  Data_ : Data
}.
End Message.

(** The [[]byte] that [json.Marshal] returns for a [Message].  The text
    itself is not modelled: a serialized envelope is known by the message
    it encodes. *)
Inductive bytes : Type :=
| Encoded (m : Message.t).

(** [type Client struct].  A [*Client] is compared by address, so the
    address is a field; [Conn] and [Send] name a connection and a channel
    of the state. *)
Module Client.
Record t : Type := mk {
  addr : nat;
  ID : string;
  Username : string;
  Conn : nat;
  Send : nat
}.
End Client.

#[global] Instance Client_eq_dec : EqDecision Client.t.
Proof. solve_decision. Defined.

#[global] Instance Client_countable : Countable Client.t.
Proof.
  refine (inj_countable'
    (fun c => (Client.addr c, Client.ID c, Client.Username c,
               Client.Conn c, Client.Send c))
    (fun p => match p with (a, i, u, k, s) => Client.mk a i u k s end) _).
  intros []; reflexivity.
Defined.

(** ** Runtime objects *)

(** A buffered channel [chan []byte]. *)
Record Chan : Type := mkChan {
  buf : list bytes;
  cap : nat;
  closed : bool
}.

(** [sync.RWMutex] *)
Record RWMutex : Type := mkMutex {
  writer : bool;
  readers : nat
}.

(** What a [websocket.Conn] has been asked to write, and whether
    [Close] was called on it. *)
Inductive WsOut : Type :=
| TextMessage (b : bytes)
| CloseMessage.

Record Connection : Type := mkConn {
  written : list WsOut;
  conn_closed : bool
}.

(** The goroutine of [Hub.run] with respect to its [select]: parked on
    it (so that a receiver waits on all three channels), handed a value
    of [h.broadcast] that it has not processed yet, or inside the body of
    a case.  [h.broadcast] is unbuffered, so this is all the state the
    channel has. *)
Inductive Loop : Type :=
| Parked
| Delivered (message : bytes)
| Busy.

(** The [Hub] and everything its functions touch. *)
Record State : Type := mkState {
  clients : gmap Client.t bool;
  locations : gmap string LocationData.t;
  mutex : RWMutex;
  loop : Loop;
  chans : gmap nat Chan;
  conns : gmap nat Connection;
  logs : list string;
  fresh : nat
}.

Definition set_clients (f : gmap Client.t bool -> gmap Client.t bool) (s : State) : State :=
  mkState (f (clients s)) (locations s) (mutex s) (loop s) (chans s) (conns s) (logs s) (fresh s).
Definition set_locations (f : gmap string LocationData.t -> gmap string LocationData.t) (s : State) : State :=
  mkState (clients s) (f (locations s)) (mutex s) (loop s) (chans s) (conns s) (logs s) (fresh s).
Definition set_mutex (m : RWMutex) (s : State) : State :=
  mkState (clients s) (locations s) m (loop s) (chans s) (conns s) (logs s) (fresh s).
Definition set_loop (l : Loop) (s : State) : State :=
  mkState (clients s) (locations s) (mutex s) l (chans s) (conns s) (logs s) (fresh s).
Definition set_chans (f : gmap nat Chan -> gmap nat Chan) (s : State) : State :=
  mkState (clients s) (locations s) (mutex s) (loop s) (f (chans s)) (conns s) (logs s) (fresh s).
Definition set_conns (f : gmap nat Connection -> gmap nat Connection) (s : State) : State :=
  mkState (clients s) (locations s) (mutex s) (loop s) (chans s) (f (conns s)) (logs s) (fresh s).
Definition add_log (line : string) (s : State) : State :=
  mkState (clients s) (locations s) (mutex s) (loop s) (chans s) (conns s) (logs s ++ [line]) (fresh s).
Definition set_fresh (n : nat) (s : State) : State :=
  mkState (clients s) (locations s) (mutex s) (loop s) (chans s) (conns s) (logs s) n.

(** ** Computations *)

(** How a call ends: it returns, it panics (an unrecovered panic ends the
    process), or it waits for something no step of its own provides. *)
Inductive Outcome (A : Type) : Type :=
| Ok (a : A) (s : State)
| Panic (msg : string) (s : State)
| Blocked (s : State).
Arguments Ok {A} a s.
Arguments Panic {A} msg s.
Arguments Blocked {A} s.

Definition M (A : Type) : Type := State -> Outcome A.

#[global] Instance M_ret : MRet M := fun A a s => Ok a s.

#[global] Instance M_bind : MBind M := fun A B k m s =>
  match m s with
  | Ok a s' => k a s'
  | Panic msg s' => Panic msg s'
  | Blocked s' => Blocked s'
  end.

Definition get : M State := fun s => Ok s s.
Definition modify (f : State -> State) : M unit := fun s => Ok tt (f s).
Definition block {A} : M A := fun s => Blocked s.

(** The state a call leaves behind, however it ends. *)
Definition final {A} (o : Outcome A) : State :=
  match o with
  | Ok _ s => s
  | Panic _ s => s
  | Blocked s => s
  end.

(** [defer cleanup] in front of [body]: the deferred call also runs when
    the body panics, and the panic goes on afterwards. *)
Definition defer {A} (cleanup : M unit) (body : M A) : M A := fun s =>
  match body s with
  | Ok a s' =>
      match cleanup s' with
      | Ok _ s'' => Ok a s''
      | Panic msg s'' => Panic msg s''
      | Blocked s'' => Blocked s''
      end
  | Panic msg s' =>
      match cleanup s' with
      | Ok _ s'' => Panic msg s''
      | Panic msg' s'' => Panic msg' s''
      | Blocked s'' => Blocked s''
      end
  | Blocked s' => Blocked s'
  end.

(** [log.Printf] and [log.Println]: the line is kept, the time stamp is
    not; where the format prints an error value or a float, the line
    stops before it. *)
Definition log (line : string) : M unit := modify (add_log line).

(** *** sync.RWMutex *)

Definition Lock : M unit := fun s =>
  if writer (mutex s) || negb (readers (mutex s) =? 0)%nat
  then Blocked s
  else Ok tt (set_mutex (mkMutex true 0) s).

Definition Unlock : M unit := fun s =>
  if writer (mutex s)
  then Ok tt (set_mutex (mkMutex false (readers (mutex s))) s)
  else Panic "sync: Unlock of unlocked RWMutex" s.

Definition RLock : M unit := fun s =>
  if writer (mutex s)
  then Blocked s
  else Ok tt (set_mutex (mkMutex false (S (readers (mutex s)))) s).

Definition RUnlock : M unit := fun s =>
  match readers (mutex s) with
  | O => Panic "sync: RUnlock of unlocked RWMutex" s
  | S n => Ok tt (set_mutex (mkMutex (writer (mutex s)) n) s)
  end.

(** *** Channels *)

(** [make(chan []byte, n)] *)
Definition make_chan (n : nat) : M nat := fun s =>
  let ch := fresh s in
  Ok ch (set_fresh (S ch) (set_chans (insert ch (mkChan [] n false)) s)).

(** [select { case ch <- v: ... default: ... }]: the result tells which
    branch ran.  A channel that is not in the state is nil and never
    ready; a closed one makes the send panic, full or not; otherwise the
    send goes through when the buffer has room. *)
Definition try_send (ch : nat) (v : bytes) : M bool := fun s =>
  match chans s !! ch with
  | None => Ok false s
  | Some c =>
      if closed c then Panic "send on closed channel" s
      else if (length (buf c) <? cap c)%nat
      then Ok true (set_chans (insert ch (mkChan (buf c ++ [v]) (cap c) false)) s)
      else Ok false s
  end.

(** [close(ch)] *)
Definition close (ch : nat) : M unit := fun s =>
  match chans s !! ch with
  | None => Panic "close of nil channel" s
  | Some c =>
      if closed c then Panic "close of closed channel" s
      else Ok tt (set_chans (insert ch (mkChan (buf c) (cap c) true)) s)
  end.

(** [select { case h.broadcast <- data: ... default: ... }] on the
    unbuffered channel: the send goes through only when the receiver,
    the goroutine of [Hub.run], is parked on its [select]. *)
Definition try_send_broadcast (data : bytes) : M bool := fun s =>
  match loop s with
  | Parked => Ok true (set_loop (Delivered data) s)
  | _ => Ok false s
  end.

(** [<-ch] of [for { select { case message, ok := <-c.Send: ... } }]:
    the oldest buffered value; on an empty buffer the zero value with
    [ok = false] once the channel is closed, and otherwise (also for a
    nil channel) the receiver waits. *)
Definition recv (ch : nat) : M (option bytes) := fun s =>
  match chans s !! ch with
  | None => Blocked s
  | Some c =>
      match buf c with
      | v :: rest => Ok (Some v) (set_chans (insert ch (mkChan rest (cap c) (closed c))) s)
      | [] => if closed c then Ok None s else Blocked s
      end
  end.

(** *** websocket.Conn *)

Definition WriteMessage (conn : nat) (m : WsOut) : M unit := fun s =>
  match conns s !! conn with
  | Some k =>
      if conn_closed k then Ok tt s
      else Ok tt (set_conns (insert conn (mkConn (written k ++ [m]) false)) s)
  | None => Ok tt s
  end.

Definition Conn_Close (conn : nat) : M unit := fun s =>
  match conns s !! conn with
  | Some k => Ok tt (set_conns (insert conn (mkConn (written k) true)) s)
  | None => Ok tt s
  end.

(** *** encoding/json, server side *)

(** [json.Marshal] refuses a float64 that is NaN or infinite
    (UnsupportedValueError); every other value main.go serializes has an
    encoding. *)
Definition finite (f : float) : bool :=
  negb (is_nan f || is_infinity f).

Definition marshals (l : LocationData.t) : bool :=
  finite (LocationData.Latitude l) && finite (LocationData.Longitude l).

Definition json_Marshal (message : Message.t) : option bytes :=
  match Message.Data_ message with
  | DataStrings _ => Some (Encoded message)
  | DataLocations ls =>
      if forallb (fun kv => marshals (snd kv)) (map_to_list ls)
      then Some (Encoded message) else None
  | DataLocation l =>
      if marshals l then Some (Encoded message) else None
  end.

(** ** The Hub *)

(** [newHub]: empty maps, a mutex nobody holds.  The goroutine of
    [Hub.run] is started by [main] and parks on its [select]. *)
Definition newHub : State :=
  mkState ∅ ∅ (mkMutex false 0) Parked ∅ ∅ [] 0.

(** [Hub.broadcastMessage] *)
Definition broadcastMessage (message : Message.t) : M unit :=
  match json_Marshal message with
  | None => log "Error marshaling message"
  | Some data =>
      sent ← try_send_broadcast data;
      if (sent : bool) then mret tt
      else log "Broadcast channel is full"
  end.

(** [Hub.sendCurrentLocations] *)
Definition sendCurrentLocations (client : Client.t) : M unit :=
  RLock;;
  defer RUnlock (
    h ← get;
    if (0 <? size (locations h))%nat then
      let message := Message.mk "current_locations" (DataLocations (locations h)) in
      match json_Marshal message with
      | None => log "Error marshaling current locations"
      | Some data =>
          sent ← try_send (Client.Send client) data;
          if (sent : bool) then mret tt
          else close (Client.Send client)
      end
    else mret tt).

(** [Hub.updateLocation] *)
Definition updateLocation (username : string) (location : LocationData.t) : M unit :=
  Lock;;
  modify (set_locations (insert username location));;
  Unlock;;
  broadcastMessage (Message.mk "location_update" (DataLocation location)).

(** What the [select] of [Hub.run] can receive. *)
Inductive Event : Type :=
| Register (client : Client.t)
| Unregister (client : Client.t)
| Broadcast (message : bytes).

Definition user_connected (client : Client.t) : Message.t :=
  Message.mk "user_connected" (DataStrings
    {[ "username" := Client.Username client;
       "message" := Client.Username client +:+ " が接続しました" ]}).

Definition user_disconnected (client : Client.t) : Message.t :=
  Message.mk "user_disconnected" (DataStrings
    {[ "username" := Client.Username client;
       "message" := Client.Username client +:+ " が切断しました" ]}).

(** [for client := range h.clients { ... }]: the body runs once for each
    key the map had; the body deletes no key but its own.  Go leaves the
    order open, here it is the order of [map_to_list]. *)
Fixpoint range (keys : list Client.t) (body : Client.t -> M unit) : M unit :=
  match keys with
  | [] => mret tt
  | client :: rest => body client;; range rest body
  end.

(** The body of that loop in the broadcast case: the [select] with a
    send on [client.Send] and a [default] branch. *)
Definition deliver (message : bytes) (client : Client.t) : M unit :=
  sent ← try_send (Client.Send client) message;
  if (sent : bool) then mret tt
  else close (Client.Send client);;
       modify (set_clients (delete client)).

(** The body of the [select] case that received [ev]. *)
Definition run_case (ev : Event) : M unit :=
  match ev with
  | Register client =>
      Lock;;
      modify (set_clients (insert client true));;
      Unlock;;
      log ("Client " +:+ Client.ID client +:+ " (" +:+ Client.Username client +:+ ") connected");;
      sendCurrentLocations client;;
      broadcastMessage (user_connected client)
  | Unregister client =>
      Lock;;
      h ← get;
      match clients h !! client with
      | Some _ =>
          modify (set_clients (delete client));;
          close (Client.Send client);;
          modify (set_locations (delete (Client.Username client)));;
          log ("Client " +:+ Client.ID client +:+ " (" +:+ Client.Username client +:+ ") disconnected");;
          broadcastMessage (user_disconnected client)
      | None => mret tt
      end;;
      Unlock
  | Broadcast message =>
      RLock;;
      h ← get;
      range (map_to_list (clients h)).*1 (deliver message);;
      RUnlock
  end.

(** [Hub.run], one turn of its [for] loop: the [select] has received
    [ev], so the goroutine waits on no channel while the body runs, and
    parks again when the body is done. *)
Definition run (ev : Event) : M unit :=
  modify (set_loop Busy);;
  run_case ev;;
  modify (set_loop Parked).

(** The goroutine of [Hub.run] gets to run: a value handed to it over
    [h.broadcast] is processed. *)
Definition hub_turn : M unit :=
  h ← get;
  match loop h with
  | Delivered message => run (Broadcast message)
  | _ => mret tt
  end.

(** [hub.register <- client] and [hub.unregister <- c]: a blocking send
    on an unbuffered channel, taken by the loop when it is parked. *)
Definition send_event (ev : Event) : M unit :=
  hub_turn;;
  h ← get;
  match loop h with
  | Parked => run ev
  | _ => block
  end.

(** ** encoding/json, client side *)

(** A JSON text as the decoder sees it.  A number is the float64 its
    literal denotes, an infinity when the literal is out of range. *)
#[local] Unset Elimination Schemes.
Inductive JSON : Type :=
| JNull
| JBool (b : bool)
| JNumber (f : float)
| JString (s : string)
| JArray (items : list JSON)
| JObject (members : list (string * JSON)).
#[local] Set Elimination Schemes.

(** The [[]byte] of a frame that [Conn.ReadMessage] returned: a JSON
    text, or bytes that are none. *)
Inductive frame : Type :=
| NotJSON (text : string)
| Document (j : JSON).

(** Whether every number converts to a float64, as storing the value in
    an [interface{}] needs. *)
Fixpoint convertible (j : JSON) : bool :=
  match j with
  | JNumber f => finite f
  | JArray items => forallb convertible items
  | JObject members => forallb (fun kv => convertible (snd kv)) members
  | _ => true
  end.

(** A [map[string]interface{}] written the way [json.Marshal] prints
    it: one member per key, sorted by key. *)
Fixpoint put (k : string) (v : JSON) (members : list (string * JSON)) : list (string * JSON) :=
  match members with
  | [] => [(k, v)]
  | (k', v') :: rest =>
      match String.compare k k' with
      | Lt => (k, v) :: members
      | Eq => (k, v) :: rest
      | Gt => (k', v') :: put k v rest
      end
  end.

(** [json.Unmarshal] into an [interface{}] followed by [json.Marshal] of
    that value: of a repeated key the last member stays, and members
    come out sorted. *)
Fixpoint reencode (j : JSON) : JSON :=
  match j with
  | JArray items => JArray (map reencode items)
  | JObject members =>
      JObject (fold_left (fun acc kv => put (fst kv) (reencode (snd kv)) acc) members [])
  | _ => j
  end.

(** Struct fields are matched by name without regard to case: the
    letters of ASCII, and the two other code points whose case folding
    reaches an ASCII letter, U+017F (bytes 197 191) for [s] and U+212A
    (bytes 226 132 170) for [k]. *)
Definition lower (a : ascii) : ascii :=
  let n := nat_of_ascii a in
  if ((65 <=? n) && (n <=? 90))%nat then ascii_of_nat (n + 32) else a.

Fixpoint fold_name (s : string) : string :=
  match s with
  | EmptyString => EmptyString
  | String "197" (String "191" rest) => String "s" (fold_name rest)
  | String "226" (String "132" (String "170" rest)) => String "k" (fold_name rest)
  | String a rest => String (lower a) (fold_name rest)
  end.

Definition names (key field : string) : bool :=
  String.eqb (fold_name key) field.

(** [var msg Message] after [json.Unmarshal(message, &msg)]: [Data] holds
    whatever JSON value came under ["data"], [JNull] for nil. *)
Module Inbound.
Record t : Type := mk {
  Type_ : string;
  Data_ : JSON
}.
End Inbound.

(** The members of an object are stored one after the other; a member
    whose value does not fit its field is an error, which the decoder
    reports when it is done.  [null] leaves a field as it is. *)
Definition Message_member (acc : Inbound.t * bool) (kv : string * JSON) : Inbound.t * bool :=
  let '(msg, ok) := acc in
  let '(k, v) := kv in
  if names k "type" then
    match v with
    | JString s => (Inbound.mk s (Inbound.Data_ msg), ok)
    | JNull => (msg, ok)
    | _ => (msg, false)
    end
  else if names k "data" then
    (Inbound.mk (Inbound.Type_ msg) v, ok && convertible v)
  else (msg, ok).

(** How deep arrays and objects are nested; the decoder refuses a text
    nested deeper than 10000. *)
Fixpoint depth (j : JSON) : N :=
  match j with
  | JArray items =>
      N.succ (fold_right (fun x acc => N.max (depth x) acc) 0%N items)
  | JObject members =>
      N.succ (fold_right (fun kv acc => N.max (depth (snd kv)) acc) 0%N members)
  | _ => 0%N
  end.

(** [json.Unmarshal(message, &msg)]; [None] is a non-nil [err]. *)
Definition json_Unmarshal_Message (message : frame) : option Inbound.t :=
  match message with
  | NotJSON _ => None
  | Document j =>
      if (10000 <? depth j)%N then None
      else
        match j with
        | JNull => Some (Inbound.mk "" JNull)
        | JObject members =>
            let '(msg, ok) :=
              fold_left Message_member members (Inbound.mk "" JNull, true) in
            if ok then Some msg else None
        | _ => None
        end
  end.

(** The digits [json.Marshal] prints for an integer-valued float64
    [F], with [10 ^ k] the place looked at.  [readPump] re-encodes
    [msg.Data], and the encoder prints the shortest decimal that reads
    back as the same float64, then zeros up to the units.  [lower4] and
    [upper4] are four times the bounds of what reads back as [F], which
    belong to it when the mantissa is even.  At the highest place where
    [F] cut off, or the next multiple above it, is within the bounds, the
    nearer of the two that are is printed, the even one when both are
    as near. *)
Fixpoint shortest (k : nat) (F lower4 upper4 : Z) (inclusive : bool) : Z :=
  let p := (10 ^ Z.of_nat k)%Z in
  let down := (F / p * p)%Z in
  let up := (down + p)%Z in
  let within (c : Z) : bool :=
    if inclusive then ((lower4 <=? 4 * c) && (4 * c <=? upper4))%Z
    else ((lower4 <? 4 * c) && (4 * c <? upper4))%Z in
  match within down, within up with
  | true, true =>
      if (2 * (F - down) <? p)%Z then down
      else if (p <? 2 * (F - down))%Z then up
      else if Z.even (F / p) then down else up
  | true, false => down
  | false, true => up
  | false, false =>
      match k with
      | O => F
      | S k' => shortest k' F lower4 upper4 inclusive
      end
  end.

(** The integer printed for the float64 [m * 2 ^ e], [0 <= e], whose
    neighbours are [2 ^ e] away, the lower one half as far when [m] is
    the least mantissa. *)
Definition printed_integer (m : positive) (e : Z) : Z :=
  let F := (Z.pos m * 2 ^ e)%Z in
  let upper4 := (4 * F + 2 * 2 ^ e)%Z in
  let lower4 := if (Z.pos m =? 2 ^ 52)%Z then (4 * F - 2 ^ e)%Z
                else (4 * F - 2 * 2 ^ e)%Z in
  shortest 20 F lower4 upper4 (Z.even (Z.pos m)).

(** What [json.Unmarshal] stores in an int64 field for a number that was
    re-encoded from the float64 [f]: the text must be an integer literal
    of the int64 range.  A float64 with a fraction prints with a point;
    an integer below [2 ^ 52] prints as itself, no shorter decimal being
    within half a unit of it. *)
Definition int64_of_float (f : float) : option Z :=
  match Prim2SF f with
  | S754_zero _ => Some 0%Z
  | S754_finite sign m e =>
      let magnitude :=
        if (0 <=? e)%Z then Some (printed_integer m e)
        else if (Z.pos m mod 2 ^ (- e) =? 0)%Z then Some (Z.pos m / 2 ^ (- e))%Z
        else None in
      match magnitude with
      | Some z =>
          let z := if sign then (- z)%Z else z in
          if ((- 2 ^ 63 <=? z) && (z <? 2 ^ 63))%Z then Some z else None
      | None => None
      end
  | _ => None
  end.

Definition LocationData_member (acc : LocationData.t * bool) (kv : string * JSON)
  : LocationData.t * bool :=
  let '(l, ok) := acc in
  let '(k, v) := kv in
  let '(LocationData.mk username latitude longitude timestamp) := l in
  if names k "username" then
    match v with
    | JString s => (LocationData.mk s latitude longitude timestamp, ok)
    | JNull => (l, ok)
    | _ => (l, false)
    end
  else if names k "latitude" then
    match v with
    | JNumber f => (LocationData.mk username f longitude timestamp, ok)
    | JNull => (l, ok)
    | _ => (l, false)
    end
  else if names k "longitude" then
    match v with
    | JNumber f => (LocationData.mk username latitude f timestamp, ok)
    | JNull => (l, ok)
    | _ => (l, false)
    end
  else if names k "timestamp" then
    match v with
    | JNumber f =>
        match int64_of_float f with
        | Some z => (LocationData.mk username latitude longitude z, ok)
        | None => (l, false)
        end
    | JNull => (l, ok)
    | _ => (l, false)
    end
  else (l, ok).

(** [dataBytes, err := json.Marshal(msg.Data)] and then
    [json.Unmarshal(dataBytes, &locationData)].  The first cannot fail
    on a value that came out of the decoder. *)
Definition json_Marshal_Data (data : JSON) : option JSON :=
  if convertible data then Some (reencode data) else None.

Definition json_Unmarshal_LocationData (dataBytes : JSON) : option LocationData.t :=
  match dataBytes with
  | JNull => Some (LocationData.mk "" 0 0 0)
  | JObject members =>
      let '(l, ok) := fold_left LocationData_member members (LocationData.mk "" 0 0 0, true) in
      if ok then Some l else None
  | _ => None
  end.

(** ** The two loops of a Client *)

(** [Client.writePump], one turn of its loop; [false] when it returns.
    The deferred [c.Conn.Close()] runs on return. *)
Definition writePump (c : Client.t) : M bool :=
  r ← recv (Client.Send c);
  match r with
  | None =>
      WriteMessage (Client.Conn c) CloseMessage;;
      Conn_Close (Client.Conn c);;
      mret false
  | Some message =>
      WriteMessage (Client.Conn c) (TextMessage message);;
      mret true
  end.

(** What [c.Conn.ReadMessage()] returns. *)
Inductive ReadResult : Type :=
| ReadError (unexpected_close : bool)
| ReadMessage (message : frame).

(** [Client.readPump], one turn of its loop; [false] when it breaks out
    and returns, which runs the deferred [hub.unregister <- c] and
    [c.Conn.Close()]. *)
Definition readPump (c : Client.t) (r : ReadResult) : M bool :=
  match r with
  | ReadError unexpected_close =>
      (if unexpected_close then log "WebSocket error" else mret tt);;
      send_event (Unregister c);;
      Conn_Close (Client.Conn c);;
      mret false
  | ReadMessage message =>
      match json_Unmarshal_Message message with
      | None => log "Error unmarshaling message";; mret true
      | Some msg =>
          if String.eqb (Inbound.Type_ msg) "location_update" then
            match json_Marshal_Data (Inbound.Data_ msg) with
            | None => log "Error marshaling location data";; mret true
            | Some dataBytes =>
                match json_Unmarshal_LocationData dataBytes with
                | None => log "Error unmarshaling location data";; mret true
                | Some locationData =>
                    let locationData :=
                      LocationData.mk (Client.Username c)
                        (LocationData.Latitude locationData)
                        (LocationData.Longitude locationData)
                        (LocationData.Timestamp locationData) in
                    log ("Received location update from " +:+ Client.Username c);;
                    updateLocation (Client.Username c) locationData;;
                    mret true
                end
            end
          else mret true
      end
  end.

(** [handleWebSocket]: whether the upgrade works, the [username] query
    parameter and the id of [generateClientID] are given.  The two
    goroutines it starts are the later turns of [writePump] and
    [readPump] for the client it returns. *)
Definition handleWebSocket (upgrade_ok : bool) (username id : string) : M (option Client.t) :=
  if upgrade_ok then
    h ← get;
    let conn := fresh h in
    modify (set_conns (insert conn (mkConn [] false)));;
    modify (set_fresh (S conn));;
    let username := if String.eqb username "" then "Anonymous" else username in
    send ← make_chan 256;
    h ← get;
    let client := Client.mk (fresh h) id username conn send in
    modify (set_fresh (S (fresh h)));;
    send_event (Register client);;
    mret (Some client)
  else
    log "WebSocket upgrade error";;
    mret None.


(** ** The operations of the Hub and the steps of the program *)

(** The four operations other goroutines ask of the Hub, each followed
    by the turn of the loop that a delivered broadcast triggers. *)
Inductive Op : Type :=
| OpRegister (session : Client.t)
| OpUnregister (session : Client.t)
| OpUpdateLocation (identity : string) (record : LocationData.t)
| OpBroadcast (envelope : Message.t).

Definition exec (op : Op) : M unit :=
  match op with
  | OpRegister session => send_event (Register session)
  | OpUnregister session => send_event (Unregister session)
  | OpUpdateLocation identity record => updateLocation identity record;; hub_turn
  | OpBroadcast envelope => broadcastMessage envelope;; hub_turn
  end.

Fixpoint execs (ops : list Op) : M unit :=
  match ops with
  | [] => mret tt
  | op :: rest => exec op;; execs rest
  end.

(** The goroutines of the program, one step at a time: a connection is
    accepted, a [readPump] or a [writePump] makes a turn of its loop, or
    the loop of [Hub.run] is scheduled. *)
Inductive Step : Type :=
| Accept (upgrade_ok : bool) (username id : string)
| Read (c : Client.t) (r : ReadResult)
| Write (c : Client.t)
| Schedule.

Definition step (st : Step) : M unit :=
  match st with
  | Accept upgrade_ok username id => handleWebSocket upgrade_ok username id;; mret tt
  | Read c r => readPump c r;; mret tt
  | Write c => writePump c;; mret tt
  | Schedule => hub_turn
  end.

Fixpoint steps (sts : list Step) : M unit :=
  match sts with
  | [] => mret tt
  | st :: rest => step st;; steps rest
  end.

(** ** Predicates on states *)

(** The sessions of the active set. *)
Definition active (s : State) : list Client.t := (map_to_list (clients s)).*1.

Definition unlocked (s : State) : bool :=
  negb (writer (mutex s)) && (readers (mutex s) =? 0)%nat.

Definition is_open (s : State) (c : Client.t) : bool :=
  match chans s !! Client.Send c with
  | Some ch => negb (closed ch)
  | None => false
  end.

(** Full at this moment: an open queue with no room. *)
Definition is_full (s : State) (c : Client.t) : bool :=
  match chans s !! Client.Send c with
  | Some ch => negb (closed ch) && negb (length (buf ch) <? cap ch)%nat
  | None => false
  end.

(** Every active session has a queue of its own that is open, and
    nobody holds the mutex. *)
Definition queues_ok (s : State) : bool :=
  forallb (is_open s) (active s)
  && bool_decide (NoDup (Client.Send <$> active s))
  && unlocked s.

(** What a queue holds. *)
Definition queue (s : State) (c : Client.t) : list bytes :=
  match chans s !! Client.Send c with
  | Some ch => buf ch
  | None => []
  end.

Definition is_closed (s : State) (c : Client.t) : bool :=
  match chans s !! Client.Send c with
  | Some ch => closed ch
  | None => false
  end.

Definition is_active (s : State) (c : Client.t) : bool :=
  bool_decide (is_Some (clients s !! c)).

(** [s'] differs from [s] at most in the active set and the channels. *)
Definition same_but_sessions (s s' : State) : Prop :=
  s' = set_clients (fun _ => clients s') (set_chans (fun _ => chans s') s).

(** What one [select] of the fan-out does to the session it is for. *)
Definition delivered (message : bytes) (s s' : State) (c : Client.t) : Prop :=
  if is_full s c
  then clients s' !! c = None /\ is_closed s' c = true /\ queue s' c = queue s c
  else clients s' !! c = clients s !! c /\ is_open s' c = true
       /\ queue s' c = (queue s c ++ [message])%list.

(** The line [broadcastMessage] leaves when nobody receives. *)
Definition dropped : string := "Broadcast channel is full".

Definition connected (c : Client.t) : string :=
  "Client " +:+ Client.ID c +:+ " (" +:+ Client.Username c +:+ ") connected".

Definition disconnected (c : Client.t) : string :=
  "Client " +:+ Client.ID c +:+ " (" +:+ Client.Username c +:+ ") disconnected".

(** An open queue with room for one more. *)
Definition has_room (s : State) (c : Client.t) : bool :=
  match chans s !! Client.Send c with
  | Some ch => negb (closed ch) && (length (buf ch) <? cap ch)%nat
  | None => false
  end.

(** Some active session goes by this identity. *)
Definition identity_active (s : State) (identity : string) : bool :=
  existsb (fun c => String.eqb (Client.Username c) identity) (active s).

(** A fan-out in this state would drop nobody. *)
Definition quiet (s : State) : bool :=
  queues_ok s && forallb (has_room s) (active s).

(** Operations as the program issues them while no consumer is slow: a
    location is updated under the identity of a session that is active,
    and no fan-out finds a queue full. *)
Definition admissible (op : Op) (s : State) : bool :=
  match op with
  | OpRegister _ => true
  | OpUnregister _ => true
  | OpUpdateLocation identity _ => identity_active s identity && quiet s
  | OpBroadcast _ => quiet s
  end.

Fixpoint admissible_trace (ops : list Op) (s : State) : bool :=
  match ops with
  | [] => true
  | op :: rest =>
      admissible op s
      && match exec op s with
         | Ok _ s' => admissible_trace rest s'
         | _ => false
         end
  end.

(** Every key of the PresenceStore is the identity of an active
    session. *)
Definition keys_active (s : State) : bool :=
  forallb (fun kv => identity_active s (fst kv)) (map_to_list (locations s)).

(** The same as a proposition. *)
Definition keys_have_sessions (s : State) : Prop :=
  forall identity, is_Some (locations s !! identity) ->
    exists c, is_Some (clients s !! c) /\ Client.Username c = identity.

(** The shape of the states the program gets into: the queues of the
    active sessions are in order, the loop of [Hub.run] is between two
    turns, and channels were made by [make]. *)
Definition sound (s : State) : Prop :=
  queues_ok s = true
  /\ loop s <> Busy
  /\ forall id, is_Some (chans s !! id) -> (id < fresh s)%nat.

(** ** Properties of the program beyond the claims: definitions *)

(** [m] keeps [P]: from a state with [P], the state [m] leaves behind,
    however it ends, has [P]. *)
Definition preserves {A} (P : State -> Prop) (m : M A) : Prop :=
  forall s, P s -> P (final (m s)).

(** Every channel is one of [handleWebSocket]: 256 places, and no more
    than 256 values waiting. *)
Definition bounded (chs : gmap nat Chan) (next : nat) : Prop :=
  forall id q, chs !! id = Some q -> cap q = 256%nat /\ (length (buf q) <= 256)%nat.

(** A session that is in the active set, or whose queue is closed. *)
Definition in_or_closed (s : State) (c : Client.t) : Prop :=
  is_Some (clients s !! c) \/ is_closed s c = true.

(** Channel [id] is closed and holds a tail of [content]. *)
Definition closed_with (id : nat) (content : list bytes)
    (chs : gmap nat Chan) (next : nat) : Prop :=
  (id < next)%nat
  /\ exists q, chs !! id = Some q /\ closed q = true /\ suffix (buf q) content.

(** [Client.writePump], at most [n] turns of its loop; [false] when it
    has returned. *)
Fixpoint writePump_turns (n : nat) (c : Client.t) : M bool :=
  match n with
  | O => mret true
  | S n =>
      continue ← writePump c;
      if (continue : bool) then writePump_turns n c else mret false
  end.

(** The [current_locations] envelope of a store. *)
Definition current_locations (store : gmap string LocationData.t) : Message.t :=
  Message.mk "current_locations" (DataLocations store).

(** What [sendCurrentLocations] puts on an empty queue. *)
Definition snapshot (store : gmap string LocationData.t) : list bytes :=
  if (0 <? size store)%nat
  then match json_Marshal (current_locations store) with
       | Some data => [data]
       | None => []
       end
  else [].

(** The name [handleWebSocket] gives a client. *)
Definition identity_of (username : string) : string :=
  if String.eqb username "" then "Anonymous" else username.

(** A stored record as the program writes them: under the identity it
    names, with coordinates that serialize and a time stamp of the int64
    range. *)
Definition well_formed (identity : string) (l : LocationData.t) : Prop :=
  LocationData.Username l = identity
  /\ marshals l = true
  /\ (- 2 ^ 63 <= LocationData.Timestamp l < 2 ^ 63)%Z.

Definition store_ok (store : gmap string LocationData.t) : Prop :=
  forall k l, store !! k = Some l -> well_formed k l.

(** ** Scenarios *)

(** The first two clients [handleWebSocket] creates on a new hub. *)
Definition alice : Client.t := Client.mk 2 "id-a" "alice" 0 1.
Definition bob : Client.t := Client.mk 5 "id-b" "bob" 3 4.

Definition position (t : Z) : LocationData.t :=
  LocationData.mk "alice" 35 135 t.

Definition location_update (record : LocationData.t) : Message.t :=
  Message.mk "location_update" (DataLocation record).

(** The frame of a [location_update] that names [username] in its
    payload. *)
Definition update_frame (username : string) (t : float) : frame :=
  Document (JObject
    [("type", JString "location_update");
     ("data", JObject [("username", JString username);
                       ("latitude", JNumber 35);
                       ("longitude", JNumber 135);
                       ("timestamp", JNumber t)])]).

(** alice connected; alice and bob connected. *)
Definition one_session : State :=
  final (steps [Accept true "alice" "id-a"] newHub).

Definition two_sessions : State :=
  final (steps [Accept true "alice" "id-a"; Accept true "bob" "id-b"] newHub).

(** alice connected and 256 of her updates fanned out while her
    [writePump] wrote none of them. *)
Definition flooded : State :=
  final (execs (map (fun t => OpUpdateLocation "alice" (position (Z.of_nat t))) (seq 0 256))
               one_session).

(** A client whose [Send] queue, of 256 places, is full before the Hub
    hears of it. *)
Definition slow : Client.t := Client.mk 8 "id-s" "slow" 6 7.

Definition saturated (s : State) : State :=
  set_chans (insert 7 (mkChan (repeat (Encoded (location_update (position 0))) 256) 256 false)) s.

(** alice connected and located once, and [slow] about to register. *)
Definition before_slow : State :=
  saturated (final (execs [OpUpdateLocation "alice" (position 1)] one_session)).

(** alice connected, 256 of her updates fanned out while her
    [writePump] wrote none of them, bob connected, and one more update
    of hers handed to the loop of the Hub. *)
Definition flood : list Step :=
  (concat (repeat [Read alice (ReadMessage (update_frame "alice" 1)); Schedule] 256)
   ++ [Accept true "bob" "id-b"; Read alice (ReadMessage (update_frame "alice" 2))])%list.

Definition overflow_run : list Step := Accept true "alice" "id-a" :: flood.

Definition overflowing : State := final (steps overflow_run newHub).

(** The loop of the Hub has fanned that update out, and dropped alice. *)
Definition overflowed : State := final (steps (flood ++ [Schedule])%list one_session).

(** What may follow: alice's outbound loop writes two frames out, she
    sends another update, carol connects, and alice's connection fails. *)
Definition later_run : list Step :=
  [Write alice; Write alice; Read alice (ReadMessage (update_frame "alice" 3));
   Schedule; Accept true "carol" "id-c"; Read alice (ReadError false)].

(** ** Basic facts *)

Lemma bind_Ok {A B} (m : M A) (k : A -> M B) s a s' :
  m s = Ok a s' -> (m ≫= k) s = k a s'.
Proof. intros H. unfold mbind, M_bind. by rewrite H. Qed.

Lemma bind_inv {A B} (m : M A) (k : A -> M B) s b s' :
  (m ≫= k) s = Ok b s' -> exists a s1, m s = Ok a s1 /\ k a s1 = Ok b s'.
Proof.
  unfold mbind, M_bind. destruct (m s) as [a s1| |] eqn:E; try discriminate.
  intros H. by exists a, s1.
Qed.

Lemma unlocked_mutex s : unlocked s = true -> mutex s = mkMutex false 0.
Proof.
  unfold unlocked. destruct (mutex s) as [w r]. simpl.
  destruct w; simpl; [discriminate|].
  intros H. apply Nat.eqb_eq in H. by subst.
Qed.

Lemma active_elem s c : c ∈ active s <-> is_Some (clients s !! c).
Proof.
  unfold active. rewrite list_elem_of_fmap. split.
  - intros [[c' b] [-> H]]. apply elem_of_map_to_list in H. by exists b.
  - intros [b H]. exists (c, b). split; [done|]. by apply elem_of_map_to_list.
Qed.

Lemma active_NoDup s : NoDup (active s).
Proof. apply NoDup_fst_map_to_list. Qed.

(** ** The fan-out of the broadcast case *)

Lemma same_but_sessions_refl s : same_but_sessions s s.
Proof. by destruct s. Qed.

Lemma same_but_sessions_trans s1 s2 s3 :
  same_but_sessions s1 s2 -> same_but_sessions s2 s3 -> same_but_sessions s1 s3.
Proof.
  unfold same_but_sessions. intros H1 H2. rewrite H2 at 1. rewrite H1 at 1.
  by destruct s1.
Qed.

Lemma deliver_open message c s :
  is_open s c = true ->
  exists s', deliver message c s = Ok tt s'
    /\ delivered message s s' c
    /\ (forall c', c' <> c -> clients s' !! c' = clients s !! c')
    /\ (forall id, id <> Client.Send c -> chans s' !! id = chans s !! id)
    /\ same_but_sessions s s'.
Proof.
  unfold deliver, delivered, is_open, is_full, is_closed, queue.
  destruct (chans s !! Client.Send c) as [ch|] eqn:E; [|discriminate].
  destruct ch as [b n cl]. simpl. intros Hcl. destruct cl; [discriminate|]. simpl.
  unfold mbind, M_bind, try_send, close. rewrite E. simpl.
  destruct (length b <? n)%nat eqn:Hroom; simpl.
  - eexists. split; [reflexivity|]. simpl. rewrite !lookup_insert_eq. simpl.
    repeat split; try done; try (by destruct s);
      try (intros; by rewrite ?lookup_insert_ne, ?lookup_delete_ne).
  - rewrite E. simpl. eexists. split; [reflexivity|]. simpl.
    rewrite !lookup_insert_eq, lookup_delete_eq. simpl.
    repeat split; try done; try (by destruct s);
      try (intros; by rewrite ?lookup_insert_ne, ?lookup_delete_ne).
Qed.

Lemma range_deliver message keys : forall s,
  NoDup (Client.Send <$> keys) ->
  (forall c, c ∈ keys -> is_open s c = true) ->
  exists s', range keys (deliver message) s = Ok tt s'
    /\ (forall c, c ∈ keys -> delivered message s s' c)
    /\ (forall c, c ∉ keys -> clients s' !! c = clients s !! c)
    /\ (forall id, id ∉ Client.Send <$> keys -> chans s' !! id = chans s !! id)
    /\ same_but_sessions s s'.
Proof.
  induction keys as [|c rest IH]; intros s Hnd Hopen.
  - exists s. simpl. split_and!; try done; try apply same_but_sessions_refl.
    intros c Hc. by apply elem_of_nil in Hc.
  - rewrite fmap_cons in Hnd. apply NoDup_cons in Hnd as [Hc Hnd].
    destruct (deliver_open message c s) as (s1 & E1 & Hd1 & Hcl1 & Hch1 & Hsame1).
    { apply Hopen. left. }
    assert (Hne : forall c', c' ∈ rest -> Client.Send c' <> Client.Send c).
    { intros c' Hin Heq. apply Hc. rewrite <- Heq. by apply list_elem_of_fmap_2. }
    assert (Hcne : forall c', c' ∈ rest -> c' <> c).
    { intros c' Hin ->. by apply (Hne c). }
    destruct (IH s1 Hnd) as (s' & E' & Hd' & Hcl' & Hch' & Hsame').
    { intros c' Hin. unfold is_open. rewrite Hch1 by by apply Hne.
      apply Hopen. by right. }
    exists s'. split.
    { simpl. by rewrite (bind_Ok _ _ _ _ _ E1). }
    assert (Hcrest : c ∉ rest).
    { intros Hin. by apply (Hcne c). }
    assert (Hsrest : Client.Send c ∉ Client.Send <$> rest) by done.
    repeat split.
    + intros c' Hin. apply elem_of_cons in Hin as [->|Hin].
      * unfold delivered, is_open, is_closed, queue in *.
        rewrite (Hcl' c Hcrest), (Hch' _ Hsrest). exact Hd1.
      * specialize (Hd' c' Hin). unfold delivered, is_full, is_open, is_closed, queue in *.
        rewrite (Hch1 _ (Hne c' Hin)), (Hcl1 _ (Hcne c' Hin)) in Hd'. exact Hd'.
    + intros c' Hnin. apply not_elem_of_cons in Hnin as [Hne' Hnin].
      by rewrite (Hcl' c' Hnin), (Hcl1 c' Hne').
    + intros id Hnin. rewrite fmap_cons in Hnin.
      apply not_elem_of_cons in Hnin as [Hne' Hnin].
      by rewrite (Hch' id Hnin), (Hch1 id Hne').
    + by eapply same_but_sessions_trans.
Qed.

Lemma queues_ok_inv s :
  queues_ok s = true ->
  (forall c, c ∈ active s -> is_open s c = true)
  /\ NoDup (Client.Send <$> active s)
  /\ mutex s = mkMutex false 0.
Proof.
  unfold queues_ok. rewrite !andb_true_iff. intros [[Ho Hn] Hu].
  split_and!.
  - intros c Hc. rewrite forallb_forall in Ho. apply Ho. by apply list_elem_of_In.
  - by apply bool_decide_eq_true in Hn.
  - by apply unlocked_mutex.
Qed.

Lemma queues_ok_intro s :
  (forall c, c ∈ active s -> is_open s c = true) ->
  NoDup (Client.Send <$> active s) ->
  mutex s = mkMutex false 0 ->
  queues_ok s = true.
Proof.
  intros Ho Hn Hm. unfold queues_ok, unlocked. rewrite Hm. simpl.
  rewrite !andb_true_iff. split_and!; try done.
  - apply forallb_forall. intros c Hc. apply Ho. by apply list_elem_of_In.
  - by apply bool_decide_eq_true.
Qed.

(** The broadcast case of [Hub.run] on a state whose queues are in
    order: the turn ends, every active session is served by one
    [select], nothing else changes. *)
Lemma run_Broadcast_spec message s :
  queues_ok s = true ->
  exists s', run (Broadcast message) s = Ok tt s'
    /\ (forall c, c ∈ active s -> delivered message s s' c)
    /\ (forall c, c ∉ active s -> clients s' !! c = clients s !! c)
    /\ (forall id, id ∉ Client.Send <$> active s -> chans s' !! id = chans s !! id)
    /\ s' = set_loop Parked (set_clients (fun _ => clients s') (set_chans (fun _ => chans s') s)).
Proof.
  intros Hok. apply queues_ok_inv in Hok as (Ho & Hn & Hm).
  set (s0 := set_mutex (mkMutex false 1) (set_loop Busy s)).
  destruct (range_deliver message (active s) s0) as (s1 & E & Hd & Hcl & Hch & Hsame); try done.
  exists (set_loop Parked (set_mutex (mkMutex false 0) s1)). split.
  - unfold run, run_case, mbind, M_bind, modify, RLock, RUnlock, get. simpl.
    rewrite Hm. simpl. fold s0. change (map_to_list (clients s)).*1 with (active s).
    rewrite E. rewrite Hsame. done.
  - split_and!; try done.
    rewrite Hsame. subst s0. simpl. destruct s. simpl in *. by rewrite Hm.
Qed.

(** ** What the cases of the loop do *)

Ltac unfold_hub :=
  unfold run, run_case, sendCurrentLocations, updateLocation, broadcastMessage,
    deliver, defer, Lock, Unlock, RLock, RUnlock, try_send, close,
    try_send_broadcast, log, modify, get, mbind, M_bind, mret, M_ret in *.

Ltac crunch :=
  unfold_hub; simpl;
  repeat (case_match; simpl in *; try done; simplify_eq);
  try done.

(** The register case with the call of [broadcastMessage] replaced by
    the log line of its [default] branch. *)
Lemma run_Register_drops s c :
  run (Register c) s =
  (modify (set_loop Busy);;
   Lock;;
   modify (set_clients (insert c true));;
   Unlock;;
   log (connected c);;
   sendCurrentLocations c;;
   log dropped;;
   modify (set_loop Parked)) s.
Proof. unfold connected, dropped. crunch. Qed.

(** The same for the unregister case. *)
Lemma run_Unregister_drops s c :
  run (Unregister c) s =
  (modify (set_loop Busy);;
   Lock;;
   h ← get;
   match clients h !! c with
   | Some _ =>
       modify (set_clients (delete c));;
       close (Client.Send c);;
       modify (set_locations (delete (Client.Username c)));;
       log (disconnected c);;
       log dropped
   | None => mret tt
   end;;
   Unlock;;
   modify (set_loop Parked)) s.
Proof. unfold disconnected, dropped. crunch. Qed.

(** Registration leaves every queue but the new session's as it was. *)
Lemma run_Register_other_queues s c s' c' :
  run (Register c) s = Ok tt s' ->
  Client.Send c' <> Client.Send c ->
  chans s' !! Client.Send c' = chans s !! Client.Send c'.
Proof.
  intros H Hne. crunch; simpl; by rewrite ?lookup_insert_ne.
Qed.

(** Unregistering a session that is not in the active set changes
    nothing. *)
Lemma run_Unregister_inactive s c :
  clients s !! c = None -> unlocked s = true -> loop s = Parked ->
  run (Unregister c) s = Ok tt s.
Proof.
  intros Hc Hu Hl. apply unlocked_mutex in Hu.
  destruct s as [cl lo mu l ch co lg fr]. simpl in *. subst.
  unfold_hub. simpl. by rewrite Hc.
Qed.

(** Unregistering an active session with an open queue. *)
Lemma run_Unregister_active s c q :
  is_Some (clients s !! c) -> chans s !! Client.Send c = Some q -> closed q = false ->
  unlocked s = true -> loop s = Parked ->
  run (Unregister c) s =
  Ok tt (add_log dropped (add_log (disconnected c)
    (set_locations (delete (Client.Username c))
      (set_chans (insert (Client.Send c) (mkChan (buf q) (cap q) true))
        (set_clients (delete c) s))))).
Proof.
  intros [b Hc] Hq Hcl Hu Hl. apply unlocked_mutex in Hu.
  destruct s as [cl lo mu l ch co lg fr]. simpl in *. subst.
  unfold_hub. simpl. rewrite Hc. simpl. rewrite Hq, Hcl. done.
Qed.

(** A [select] of the fan-out never waits; when it returns, its own
    queue was not closed and every closed queue still is. *)
Lemma deliver_closed message c s :
  match deliver message c s with
  | Ok _ s1 =>
      is_closed s c = false
      /\ forall c', is_closed s c' = true -> is_closed s1 c' = true
  | Panic _ _ => True
  | Blocked _ => False
  end.
Proof.
  unfold deliver, is_closed, try_send, close, modify, mbind, M_bind, mret, M_ret.
  destruct (chans s !! Client.Send c) as [q|] eqn:E; simpl.
  - destruct (closed q) eqn:Hq; [done|].
    destruct (length (buf q) <? cap q)%nat; simpl.
    + split; [done|]. intros c' Hc'.
      destruct (decide (Client.Send c' = Client.Send c)) as [Heq|Hne].
      * rewrite Heq, E, Hq in Hc'. discriminate.
      * by rewrite lookup_insert_ne.
    + rewrite E, Hq. simpl. split; [done|]. intros c' Hc'.
      destruct (decide (Client.Send c' = Client.Send c)) as [Heq|Hne].
      * rewrite Heq, E, Hq in Hc'. discriminate.
      * by rewrite lookup_insert_ne.
  - by rewrite E.
Qed.

(** A fan-out that has a session with a closed queue among its keys
    panics. *)
Lemma range_deliver_panics message c keys : forall s,
  c ∈ keys -> is_closed s c = true ->
  exists msg st, range keys (deliver message) s = Panic msg st.
Proof.
  induction keys as [|c' rest IH]; intros s Hin Hcl.
  - by apply elem_of_nil in Hin.
  - simpl. unfold mbind, M_bind.
    pose proof (deliver_closed message c' s) as Hd.
    destruct (deliver message c' s) as [[] s1|msg st|]; [|by eauto|done].
    destruct Hd as [Hopen Hkeep].
    apply elem_of_cons in Hin as [->|Hin]; [congruence|].
    apply IH; [done|]. by apply Hkeep.
Qed.

Lemma run_Broadcast_panics message c s :
  is_Some (clients s !! c) -> is_closed s c = true -> unlocked s = true ->
  exists msg st, run (Broadcast message) s = Panic msg st.
Proof.
  intros Hc Hcl Hu. apply unlocked_mutex in Hu.
  destruct (range_deliver_panics message c (active s)
              (set_mutex (mkMutex false 1) (set_loop Busy s))) as (msg & st & E).
  { by apply active_elem. }
  { done. }
  exists msg, st. unfold run, run_case, mbind, M_bind, modify, RLock, get. simpl.
  rewrite Hu. simpl. change (map_to_list (clients s)).*1 with (active s). by rewrite E.
Qed.

(** ** Fan-out, registration and unregistration *)

(** C1. In a state where every active session has an open queue of its
    own, the broadcast case of the Hub's loop runs to its end without
    blocking or panicking: a session whose queue is full at that moment
    gets nothing, has its queue closed and leaves the active set; every
    other active session has the envelope appended to its queue and stays
    active; sessions outside the active set and the PresenceStore are
    left alone. *)
Theorem broadcast_drops_only_full_queues (s : State) (message : bytes) :
  queues_ok s = true ->
  exists s', run (Broadcast message) s = Ok tt s'
    /\ (forall c, is_Some (clients s !! c) ->
          if is_full s c
          then clients s' !! c = None /\ is_closed s' c = true
               /\ queue s' c = queue s c
          else clients s' !! c = clients s !! c /\ is_open s' c = true
               /\ queue s' c = (queue s c ++ [message])%list)
    /\ (forall c, clients s !! c = None -> clients s' !! c = None)
    /\ locations s' = locations s
    /\ loop s' = Parked.
Proof.
  intros Hok.
  destruct (run_Broadcast_spec message s Hok) as (s' & E & Hd & Hcl & _ & Hs').
  exists s'. split_and!; try done.
  - intros c Hc. apply Hd. by apply active_elem.
  - intros c Hc. rewrite Hcl; [done|]. rewrite active_elem, Hc. by intros [? ?].
  - by rewrite Hs'.
  - by rewrite Hs'.
Qed.

Lemma broadcast_drops_only_full_queues_witness :
  queues_ok flooded = true
  /\ exists s', run (Broadcast (Encoded (location_update (position 1000)))) flooded = Ok tt s'
       /\ (forall c, is_Some (clients flooded !! c) ->
             if is_full flooded c
             then clients s' !! c = None /\ is_closed s' c = true
                  /\ queue s' c = queue flooded c
             else clients s' !! c = clients flooded !! c /\ is_open s' c = true
                  /\ queue s' c
                     = (queue flooded c ++ [Encoded (location_update (position 1000))])%list)
       /\ (forall c, clients flooded !! c = None -> clients s' !! c = None)
       /\ locations s' = locations flooded
       /\ loop s' = Parked.
Proof.
  split; [vm_compute; reflexivity|].
  apply (broadcast_drops_only_full_queues flooded). vm_compute; reflexivity.
Defined.

(** C9. [broadcastMessage] never waits for a receiver: it returns in
    every state, and in a state where the loop of [Hub.run] is not parked
    on its [select] it has written one log line and done nothing else,
    for every envelope;
    the line is the one of the [default] branch when the envelope
    serializes.  The notices of the register and unregister cases are
    submitted while that loop, the only receiver, runs the case, so each
    of the two cases does what it would do with the call replaced by the
    log line. *)
Theorem broadcastMessage_drops_without_receiver :
  (forall s message, exists s', broadcastMessage message s = Ok tt s')
  /\ (forall s message, loop s <> Parked ->
     broadcastMessage message s =
     Ok tt (add_log match json_Marshal message with
                    | Some _ => dropped
                    | None => "Error marshaling message"
                    end s))
  /\ (forall s c,
        run (Register c) s =
        (modify (set_loop Busy);;
         Lock;;
         modify (set_clients (insert c true));;
         Unlock;;
         log (connected c);;
         sendCurrentLocations c;;
         log dropped;;
         modify (set_loop Parked)) s)
  /\ (forall s c,
        run (Unregister c) s =
        (modify (set_loop Busy);;
         Lock;;
         h ← get;
         match clients h !! c with
         | Some _ =>
             modify (set_clients (delete c));;
             close (Client.Send c);;
             modify (set_locations (delete (Client.Username c)));;
             log (disconnected c);;
             log dropped
         | None => mret tt
         end;;
         Unlock;;
         modify (set_loop Parked)) s).
Proof.
  split_and!.
  - intros s message. unfold broadcastMessage, try_send_broadcast, log, modify,
      mbind, M_bind, mret, M_ret.
    destruct (json_Marshal message); [destruct (loop s)|]; by eexists.
  - intros s message Hl. unfold broadcastMessage, try_send_broadcast, log, modify,
      mbind, M_bind, mret, M_ret, dropped.
    destruct (json_Marshal message) as [d|]; [|done].
    by destruct (loop s).
  - apply run_Register_drops.
  - apply run_Unregister_drops.
Qed.

Lemma broadcastMessage_drops_without_receiver_witness :
  loop (set_loop Busy two_sessions) <> Parked
  /\ broadcastMessage (user_disconnected alice) (set_loop Busy two_sessions)
     = Ok tt (add_log dropped (set_loop Busy two_sessions)).
Proof.
  split; [discriminate|].
  exact (proj1 (proj2 broadcastMessage_drops_without_receiver)
           (set_loop Busy two_sessions) (user_disconnected alice)
           ltac:(discriminate)).
Defined.

(** C10. When the snapshot send of a registration finds the queue of the
    new session full, the register case closes that queue and does no
    more about it: the session is in the active set afterwards, the
    PresenceStore is as before, and the log has the connection line and
    the line of the dropped join notice, none about a disconnection.  The
    next broadcast then has this session among its targets, and its send
    on the closed queue panics. *)
Theorem saturated_snapshot_leaves_session_active
    (s : State) (c : Client.t) (q : Chan) (data : bytes) :
  unlocked s = true ->
  (0 < size (locations s))%nat ->
  json_Marshal (Message.mk "current_locations" (DataLocations (locations s))) = Some data ->
  chans s !! Client.Send c = Some q -> closed q = false ->
  (cap q <= length (buf q))%nat ->
  exists s', run (Register c) s = Ok tt s'
    /\ clients s' = <[c := true]> (clients s)
    /\ chans s' = <[Client.Send c := mkChan (buf q) (cap q) true]> (chans s)
    /\ locations s' = locations s
    /\ logs s' = (logs s ++ [connected c; dropped])%list
    /\ forall message, exists msg st, run (Broadcast message) s' = Panic msg st.
Proof.
  intros Hu Hsize Hdata Hq Hcl Hfull.
  assert (Hm := unlocked_mutex s Hu).
  apply Nat.ltb_lt in Hsize. apply Nat.ltb_ge in Hfull.
  eexists. split.
  { rewrite run_Register_drops. unfold_hub. simpl. rewrite Hm. simpl.
    rewrite Hsize, Hdata. simpl. rewrite Hq, Hcl, Hfull. simpl.
    rewrite Hq, Hcl. simpl. reflexivity. }
  simpl. split_and!; try done.
  - by rewrite <- app_assoc.
  - intros message. apply (run_Broadcast_panics message c).
    + simpl. rewrite lookup_insert_eq. by eexists.
    + unfold is_closed. simpl. by rewrite lookup_insert_eq.
    + done.
Qed.

Lemma saturated_snapshot_leaves_session_active_witness :
  exists s', run (Register slow) before_slow = Ok tt s'
    /\ clients s' = <[slow := true]> (clients before_slow)
    /\ chans s' = <[Client.Send slow :=
                     mkChan (repeat (Encoded (location_update (position 0))) 256) 256 true]>
                    (chans before_slow)
    /\ locations s' = locations before_slow
    /\ logs s' = (logs before_slow ++ [connected slow; dropped])%list
    /\ forall message, exists msg st, run (Broadcast message) s' = Panic msg st.
Proof.
  apply (saturated_snapshot_leaves_session_active before_slow slow
           (mkChan (repeat (Encoded (location_update (position 0))) 256) 256 false)
           (Encoded (Message.mk "current_locations" (DataLocations (locations before_slow))))).
  - vm_compute; reflexivity.
  - vm_compute; lia.
  - vm_compute; reflexivity.
  - vm_compute; reflexivity.
  - reflexivity.
  - vm_compute; lia.
Defined.

(** C2, at a registration with a session already there.  alice connects
    and sends her location, the loop fans it out, then bob connects.
    Bob's queue holds the [current_locations] snapshot and nothing else;
    alice's queue holds her own update and nothing else: the
    [user_connected] notice for bob reached nobody, the log has the line
    of the dropped send in its place. *)
Theorem join_notice_reaches_nobody :
  exists s,
    steps [Accept true "alice" "id-a"; Read alice (ReadMessage (update_frame "alice" 1));
           Schedule; Accept true "bob" "id-b"] newHub = Ok tt s
    /\ is_active s alice = true /\ is_active s bob = true
    /\ queue s bob
       = [Encoded (Message.mk "current_locations"
                     (DataLocations {[ "alice" := position 1 ]}))]
    /\ queue s alice = [Encoded (location_update (position 1))]
    /\ logs s = [connected alice; dropped; "Received location update from alice";
                 connected bob; dropped].
Proof.
  exists (final (steps [Accept true "alice" "id-a";
                        Read alice (ReadMessage (update_frame "alice" 1));
                        Schedule; Accept true "bob" "id-b"] newHub)).
  split_and!; vm_compute; reflexivity.
Qed.

(** C6, at the first unregister of a session while another one is
    active.  alice leaves: she is out of the active set, her queue is
    closed, and a second unregister changes nothing; but bob's queue is
    as empty as before, the [user_disconnected] notice was dropped. *)
Theorem leave_notice_reaches_nobody :
  exists s,
    exec (OpUnregister alice) two_sessions = Ok tt s
    /\ is_active two_sessions alice = true /\ is_active two_sessions bob = true
    /\ is_active s alice = false /\ is_closed s alice = true
    /\ is_active s bob = true /\ queue s bob = []
    /\ logs s = (logs two_sessions ++ [disconnected alice; dropped])%list
    /\ exec (OpUnregister alice) s = Ok tt s.
Proof.
  exists (final (exec (OpUnregister alice) two_sessions)).
  split_and!; vm_compute; reflexivity.
Qed.

(** ** Inbound frames *)

(** What [json.Unmarshal] stored under [Data] re-encodes: the
    ["Error marshaling location data"] branch of [readPump] is never
    taken. *)
Lemma Message_member_convertible members : forall msg ok msg' ok',
  (ok = true -> convertible (Inbound.Data_ msg) = true) ->
  fold_left Message_member members (msg, ok) = (msg', ok') ->
  ok' = true -> convertible (Inbound.Data_ msg') = true.
Proof.
  induction members as [|[k v] rest IH]; intros msg ok msg' ok' Hinv Hfold Hok.
  - simpl in Hfold. injection Hfold as <- <-. by apply Hinv.
  - simpl in Hfold. destruct (names k "type").
    + destruct v; eapply IH; try exact Hfold; try done.
    + destruct (names k "data").
      * eapply IH; [|exact Hfold|done]. simpl. intros H.
        apply andb_true_iff in H. tauto.
      * by eapply IH.
Qed.

Lemma json_Unmarshal_Message_convertible message msg :
  json_Unmarshal_Message message = Some msg ->
  exists dataBytes, json_Marshal_Data (Inbound.Data_ msg) = Some dataBytes.
Proof.
  unfold json_Unmarshal_Message, json_Marshal_Data. intros H.
  assert (convertible (Inbound.Data_ msg) = true) as ->; [|by eexists].
  destruct message as [|j]; [done|].
  destruct (10000 <? depth j)%N; [done|]. destruct j; try done.
  - by injection H as <-.
  - destruct (fold_left Message_member members _) as [m ok] eqn:E.
    destruct ok; [|done]. injection H as <-.
    eapply Message_member_convertible; [|exact E|done]. done.
Qed.

(** [readPump] on a frame that decodes to a location record. *)
Lemma readPump_update s c message msg dataBytes l :
  json_Unmarshal_Message message = Some msg ->
  Inbound.Type_ msg = "location_update" ->
  json_Marshal_Data (Inbound.Data_ msg) = Some dataBytes ->
  json_Unmarshal_LocationData dataBytes = Some l ->
  readPump c (ReadMessage message) s =
  (log ("Received location update from " +:+ Client.Username c);;
   updateLocation (Client.Username c)
     (LocationData.mk (Client.Username c) (LocationData.Latitude l)
        (LocationData.Longitude l) (LocationData.Timestamp l));;
   mret true) s.
Proof.
  intros H1 H2 H3 H4. unfold readPump. by rewrite H1, H2, H3, H4.
Qed.

Lemma updateLocation_unlocked s identity record :
  unlocked s = true ->
  exists s', updateLocation identity record s = Ok tt s'
    /\ locations s' = <[identity := record]> (locations s)
    /\ clients s' = clients s /\ chans s' = chans s /\ mutex s' = mutex s
    /\ loop s' = match json_Marshal (location_update record), loop s with
                 | Some data, Parked => Delivered data
                 | _, _ => loop s
                 end.
Proof.
  intros Hu. apply unlocked_mutex in Hu.
  unfold updateLocation, broadcastMessage, location_update, Lock, Unlock, modify, log,
    try_send_broadcast, mbind, M_bind, mret, M_ret.
  rewrite Hu. simpl.
  destruct (json_Marshal _); simpl; [destruct (loop s) eqn:El; simpl|];
    (eexists; split; [reflexivity|]); simpl; rewrite ?El; done.
Qed.

(** C7. For every session [c] and every frame of kind [location_update]
    whose payload decodes to a record, whatever username the payload
    carries: the turn of [c]'s inbound loop goes on, the PresenceStore
    afterwards is the one before with the entry of [c]'s own identity
    overwritten, the record stored there carries that identity, and the
    entry of every other identity is what it was. *)
Theorem readPump_overwrites_username
    (s : State) (c : Client.t) (message : frame) (msg : Inbound.t)
    (dataBytes : JSON) (l : LocationData.t) :
  unlocked s = true ->
  json_Unmarshal_Message message = Some msg ->
  Inbound.Type_ msg = "location_update" ->
  json_Marshal_Data (Inbound.Data_ msg) = Some dataBytes ->
  json_Unmarshal_LocationData dataBytes = Some l ->
  exists s', readPump c (ReadMessage message) s = Ok true s'
    /\ locations s' =
       <[Client.Username c :=
           LocationData.mk (Client.Username c) (LocationData.Latitude l)
             (LocationData.Longitude l) (LocationData.Timestamp l)]> (locations s)
    /\ (exists stored, locations s' !! Client.Username c = Some stored
          /\ LocationData.Username stored = Client.Username c)
    /\ (forall other, other <> Client.Username c ->
          locations s' !! other = locations s !! other).
Proof.
  intros Hu H1 H2 H3 H4.
  rewrite (readPump_update s c message msg dataBytes l H1 H2 H3 H4).
  destruct (updateLocation_unlocked
              (add_log ("Received location update from " +:+ Client.Username c) s)
              (Client.Username c)
              (LocationData.mk (Client.Username c) (LocationData.Latitude l)
                 (LocationData.Longitude l) (LocationData.Timestamp l)))
    as (s' & E & Hloc & _); [done|].
  exists s'. split.
  { unfold log, modify, mbind, M_bind, mret, M_ret in *. simpl. by rewrite E. }
  split; [exact Hloc|]. rewrite Hloc. split.
  - eexists. rewrite lookup_insert_eq. done.
  - intros other Hne. by rewrite lookup_insert_ne.
Qed.

Lemma readPump_overwrites_username_witness :
  exists s', readPump alice (ReadMessage (update_frame "bob" 1000)) two_sessions = Ok true s'
    /\ locations s' = <[ "alice" := position 1000 ]> (locations two_sessions)
    /\ (exists stored, locations s' !! "alice" = Some stored
          /\ LocationData.Username stored = "alice")
    /\ (forall other, other <> "alice" ->
          locations s' !! other = locations two_sessions !! other).
Proof.
  apply (readPump_overwrites_username two_sessions alice (update_frame "bob" 1000)
           (Inbound.mk "location_update"
              (JObject [("username", JString "bob"); ("latitude", JNumber 35);
                        ("longitude", JNumber 135); ("timestamp", JNumber 1000)]))
           (JObject [("latitude", JNumber 35); ("longitude", JNumber 135);
                     ("timestamp", JNumber 1000); ("username", JString "bob")])
           (LocationData.mk "bob" 35 135 1000));
    vm_compute; reflexivity.
Defined.

(** C8, as stated, fails: a frame that is no JSON text makes the
    envelope decode fail, and the inbound loop of alice goes on; she is
    still in the active set with her queue open, and only a log line was
    written. *)
Lemma envelope_decode_failure_keeps_session :
  json_Unmarshal_Message (NotJSON "{") = None
  /\ readPump alice (ReadMessage (NotJSON "{")) two_sessions
     = Ok true (add_log "Error unmarshaling message" two_sessions)
  /\ is_active (add_log "Error unmarshaling message" two_sessions) alice = true
  /\ is_closed (add_log "Error unmarshaling message" two_sessions) alice = false.
Proof. split_and!; vm_compute; reflexivity. Qed.

(** C8, amended.  For every inbound frame, a decode failure is
    recoverable at both levels: when the envelope does not decode, and
    when the payload under the kind [location_update] does not decode,
    the turn of the inbound loop writes one log line, changes nothing
    else and continues with the next frame.  No frame ends the loop: a
    turn that returns on a frame continues. *)
Theorem decode_failures_are_skipped (s : State) (c : Client.t) (message : frame) :
  (json_Unmarshal_Message message = None ->
     readPump c (ReadMessage message) s
     = Ok true (add_log "Error unmarshaling message" s))
  /\ (forall msg dataBytes,
        json_Unmarshal_Message message = Some msg ->
        Inbound.Type_ msg = "location_update" ->
        json_Marshal_Data (Inbound.Data_ msg) = Some dataBytes ->
        json_Unmarshal_LocationData dataBytes = None ->
        readPump c (ReadMessage message) s
        = Ok true (add_log "Error unmarshaling location data" s))
  /\ (forall continue s',
        readPump c (ReadMessage message) s = Ok continue s' -> continue = true).
Proof.
  split_and!.
  - intros H. unfold readPump. by rewrite H.
  - intros msg dataBytes H1 H2 H3 H4. unfold readPump. by rewrite H1, H2, H3, H4.
  - intros continue s' H. unfold readPump in H.
    repeat case_match; unfold mbind, M_bind, mret, M_ret in H;
      repeat case_match; by simplify_eq.
Qed.

Lemma decode_failures_are_skipped_witness :
  readPump alice (ReadMessage (Document (JArray [JNumber 1; JNumber 2]))) two_sessions
  = Ok true (add_log "Error unmarshaling message" two_sessions)
  /\ readPump alice
       (ReadMessage (Document (JObject [("type", JString "location_update");
                                        ("data", JObject [("latitude", JString "north")])])))
       two_sessions
     = Ok true (add_log "Error unmarshaling location data" two_sessions).
Proof.
  split.
  - apply (proj1 (decode_failures_are_skipped two_sessions alice
                    (Document (JArray [JNumber 1; JNumber 2])))).
    reflexivity.
  - apply (proj1 (proj2 (decode_failures_are_skipped two_sessions alice
                    (Document (JObject [("type", JString "location_update");
                                        ("data", JObject [("latitude", JString "north")])]))))
             (Inbound.mk "location_update" (JObject [("latitude", JString "north")]))
             (JObject [("latitude", JString "north")]));
      vm_compute; reflexivity.
Defined.

(** ** Who writes the PresenceStore *)

Lemma deliver_frame message c s s' :
  deliver message c s = Ok tt s' ->
  locations s' = locations s /\ mutex s' = mutex s /\ loop s' = loop s.
Proof. intros H. crunch. Qed.

Lemma range_frame message keys : forall s s',
  range keys (deliver message) s = Ok tt s' ->
  locations s' = locations s /\ mutex s' = mutex s /\ loop s' = loop s.
Proof.
  induction keys as [|c rest IH]; intros s s' H.
  - simpl in H. unfold mret, M_ret in H. by simplify_eq.
  - simpl in H. apply bind_inv in H as ([] & s1 & H1 & H2).
    apply deliver_frame in H1 as (E1 & E2 & E3).
    apply IH in H2 as (F1 & F2 & F3). by rewrite F1, F2, F3.
Qed.

(** No case of the loop adds an entry to the PresenceStore or changes
    one, and every case leaves the loop parked. *)
Lemma run_locations ev s s' :
  run ev s = Ok tt s' ->
  loop s' = Parked
  /\ forall k v, locations s' !! k = Some v -> locations s !! k = Some v.
Proof.
  destruct ev as [c|c|message]; intros H.
  - crunch.
  - crunch. split; [done|]. simpl. intros k v Hk.
    apply lookup_delete_Some in Hk. tauto.
  - unfold run, run_case in H.
    apply bind_inv in H as ([] & s1 & H1 & H).
    apply bind_inv in H as ([] & s2 & H2 & H3).
    apply bind_inv in H2 as ([] & s3 & H4 & H2).
    apply bind_inv in H2 as (h & s4 & H5 & H2).
    apply bind_inv in H2 as ([] & s5 & H6 & H7).
    apply range_frame in H6 as (Hl & _ & _).
    unfold RLock, RUnlock, modify, get in *.
    repeat case_match; simplify_eq; simpl in *. split; [done|]. by rewrite Hl.
Qed.

Lemma hub_turn_locations s s' :
  hub_turn s = Ok tt s' ->
  forall k v, locations s' !! k = Some v -> locations s !! k = Some v.
Proof.
  unfold hub_turn, get, mbind, M_bind, mret, M_ret.
  destruct (loop s); intros H; simplify_eq; try done.
  by apply run_locations in H as [_ H].
Qed.

Lemma send_event_locations ev s s' :
  send_event ev s = Ok tt s' ->
  forall k v, locations s' !! k = Some v -> locations s !! k = Some v.
Proof.
  unfold send_event. intros H.
  apply bind_inv in H as ([] & s1 & H1 & H).
  apply bind_inv in H as (h & s2 & H2 & H).
  unfold get, block in *. simplify_eq.
  destruct (loop s2); try done.
  apply run_locations in H as [_ H]. intros k v Hk.
  by apply (hub_turn_locations _ _ H1), H.
Qed.

Lemma broadcastMessage_locations message s s' :
  broadcastMessage message s = Ok tt s' -> locations s' = locations s.
Proof. intros H. crunch. Qed.

Lemma queues_ok_same s s1 :
  clients s1 = clients s -> chans s1 = chans s -> mutex s1 = mutex s ->
  queues_ok s1 = queues_ok s.
Proof.
  intros Hc Hq Hm. unfold queues_ok, active, is_open, unlocked.
  by rewrite Hc, Hm, Hq.
Qed.

Lemma delivered_same message s s1 s' c :
  clients s1 = clients s -> chans s1 = chans s ->
  delivered message s1 s' c -> delivered message s s' c.
Proof.
  unfold delivered, is_full, queue. intros Hc Hq. by rewrite Hc, Hq.
Qed.

(** [updateLocation] in front of a parked loop, and the turn of the loop
    it triggers. *)
Lemma exec_UpdateLocation_parked s identity record :
  queues_ok s = true -> loop s = Parked -> marshals record = true ->
  exists s', exec (OpUpdateLocation identity record) s = Ok tt s'
    /\ locations s' = <[identity := record]> (locations s)
    /\ (forall c, c ∈ active s -> delivered (Encoded (location_update record)) s s' c)
    /\ (forall c, c ∉ active s -> clients s' !! c = clients s !! c)
    /\ (forall id, id ∉ Client.Send <$> active s -> chans s' !! id = chans s !! id)
    /\ loop s' = Parked /\ mutex s' = mutex s.
Proof.
  intros Hok Hl Hr.
  assert (Hu : unlocked s = true).
  { unfold queues_ok in Hok. apply andb_true_iff in Hok. tauto. }
  destruct (updateLocation_unlocked s identity record Hu)
    as (s1 & E1 & Hloc & Hcl & Hch & Hmu & Hloop).
  unfold json_Marshal, location_update in Hloop. simpl in Hloop.
  rewrite Hr, Hl in Hloop.
  destruct (run_Broadcast_spec (Encoded (location_update record)) s1)
    as (s' & E' & Hd & Hout & Hfr & Hs').
  { by rewrite (queues_ok_same s s1). }
  assert (Ha : active s1 = active s) by (unfold active; by rewrite Hcl).
  rewrite Ha in *.
  exists s'. split_and!.
  - unfold exec. rewrite (bind_Ok _ _ _ _ _ E1).
    unfold hub_turn, get, mbind, M_bind. by rewrite Hloop.
  - rewrite Hs'. simpl. done.
  - intros c Hc. apply (delivered_same _ s s1); auto.
  - intros c Hc. by rewrite Hout, Hcl.
  - intros id Hid. by rewrite Hfr, Hch.
  - by rewrite Hs'.
  - rewrite Hs'. simpl. done.
Qed.

(** [updateLocation] while the loop is elsewhere: the store is written,
    the envelope is dropped. *)
Lemma updateLocation_busy s identity record :
  unlocked s = true -> loop s <> Parked ->
  updateLocation identity record s
  = Ok tt (add_log match json_Marshal (location_update record) with
                   | Some _ => dropped
                   | None => "Error marshaling message"
                   end (set_locations (insert identity record) s)).
Proof.
  intros Hu Hl. apply unlocked_mutex in Hu.
  destruct s as [cl lo mu l ch co lg fr]. simpl in *. subst.
  unfold updateLocation, broadcastMessage, location_update, Lock, Unlock, modify, log,
    try_send_broadcast, mbind, M_bind, mret, M_ret. simpl.
  destruct (json_Marshal _); [|done]. by destruct l.
Qed.

(** C3, as stated, fails.  alice is active and her queue holds 256
    envelopes nobody wrote out.  Her next update is stored, but she, an
    active session when the call was made, does not receive it: her queue
    is exactly what it was, and she is no longer active. *)
Lemma full_queue_misses_update :
  is_active flooded alice = true
  /\ exists s', exec (OpUpdateLocation "alice" (position 1000)) flooded = Ok tt s'
     /\ locations s' !! "alice" = Some (position 1000)
     /\ queue s' alice = queue flooded alice
     /\ length (queue s' alice) = 256%nat
     /\ last (queue s' alice) = Some (Encoded (location_update (position 255)))
     /\ is_active s' alice = false.
Proof.
  split; [vm_compute; reflexivity|].
  exists (final (exec (OpUpdateLocation "alice" (position 1000)) flooded)).
  split_and!; vm_compute; reflexivity.
Qed.

(** C3, amended.  In a state whose active sessions have open queues of
    their own, every call of UpdateLocation overwrites the PresenceStore
    entry of the identity with the record.  For a call made while the
    loop of the Hub waits on its [select], with a record that
    serializes, the envelope is fanned out: every active session with
    room in its queue, the sender's included, has a [location_update]
    envelope carrying the record appended to its queue, and every active
    session whose queue is full is dropped instead.  No other operation
    of the Hub adds an entry to the PresenceStore or changes one. *)
Theorem updateLocation_overwrites_then_fans_out
    (s : State) (identity : string) (record : LocationData.t) :
  queues_ok s = true ->
  (exists s1, updateLocation identity record s = Ok tt s1
     /\ locations s1 = <[identity := record]> (locations s))
  /\ (loop s = Parked -> marshals record = true ->
      exists s', exec (OpUpdateLocation identity record) s = Ok tt s'
        /\ locations s' = <[identity := record]> (locations s)
        /\ forall c, is_Some (clients s !! c) ->
             if is_full s c
             then clients s' !! c = None /\ is_closed s' c = true
                  /\ queue s' c = queue s c
             else clients s' !! c = clients s !! c /\ is_open s' c = true
                  /\ queue s' c
                     = (queue s c ++ [Encoded (location_update record)])%list)
  /\ (forall op s1 s2,
        match op with OpUpdateLocation _ _ => False | _ => True end ->
        exec op s1 = Ok tt s2 ->
        forall k v, locations s2 !! k = Some v -> locations s1 !! k = Some v).
Proof.
  intros Hok.
  assert (Hu : unlocked s = true).
  { unfold queues_ok in Hok. apply andb_true_iff in Hok. tauto. }
  split_and!.
  - destruct (updateLocation_unlocked s identity record Hu) as (s1 & E & Hl & _).
    by exists s1.
  - intros Hl Hr.
    destruct (exec_UpdateLocation_parked s identity record Hok Hl Hr)
      as (s' & E & Hloc & Hd & _).
    exists s'. split_and!; try done.
    intros c Hc. apply Hd. by apply active_elem.
  - intros op s1 s2 Hop E. destruct op as [c|c|i r|m]; [| |done|].
    + exact (send_event_locations _ _ _ E).
    + exact (send_event_locations _ _ _ E).
    + unfold exec in E. apply bind_inv in E as ([] & s3 & E1 & E2).
      apply broadcastMessage_locations in E1. intros k v Hk. rewrite <- E1.
      by apply (hub_turn_locations _ _ E2).
Qed.

Lemma updateLocation_overwrites_then_fans_out_witness :
  exists s', exec (OpUpdateLocation "alice" (position 1000)) two_sessions = Ok tt s'
    /\ locations s' = <[ "alice" := position 1000 ]> (locations two_sessions)
    /\ forall c, is_Some (clients two_sessions !! c) ->
         if is_full two_sessions c
         then clients s' !! c = None /\ is_closed s' c = true
              /\ queue s' c = queue two_sessions c
         else clients s' !! c = clients two_sessions !! c /\ is_open s' c = true
              /\ queue s' c
                 = (queue two_sessions c ++ [Encoded (location_update (position 1000))])%list.
Proof.
  apply (proj1 (proj2 (updateLocation_overwrites_then_fans_out
                         two_sessions "alice" (position 1000)
                         ltac:(vm_compute; reflexivity)))).
  - vm_compute; reflexivity.
  - vm_compute; reflexivity.
Defined.

(** ** PresenceStore keys and active sessions *)

Lemma identity_active_spec s identity :
  identity_active s identity = true
  <-> exists c, is_Some (clients s !! c) /\ Client.Username c = identity.
Proof.
  unfold identity_active. rewrite existsb_exists. split.
  - intros (c & Hin & Heq). exists c. split.
    + apply active_elem. by apply list_elem_of_In.
    + by apply String.eqb_eq.
  - intros (c & Hc & Heq). exists c. split.
    + apply list_elem_of_In. by apply active_elem.
    + by apply String.eqb_eq.
Qed.

Lemma keys_active_spec s :
  keys_active s = true
  <-> forall identity, is_Some (locations s !! identity) ->
        exists c, is_Some (clients s !! c) /\ Client.Username c = identity.
Proof.
  unfold keys_active. rewrite forallb_forall. split.
  - intros H k [v Hk]. apply identity_active_spec.
    apply (H (k, v)). apply list_elem_of_In. by apply elem_of_map_to_list.
  - intros H [k v] Hin. apply identity_active_spec. apply H.
    apply list_elem_of_In, elem_of_map_to_list in Hin. by exists v.
Qed.

Lemma run_Register_frame s c s' :
  run (Register c) s = Ok tt s' ->
  clients s' = <[c := true]> (clients s) /\ locations s' = locations s.
Proof. intros H. crunch. Qed.

Lemma run_Unregister_frame s c s' :
  run (Unregister c) s = Ok tt s' ->
  (clients s !! c = None /\ clients s' = clients s /\ locations s' = locations s)
  \/ (clients s' = delete c (clients s)
      /\ locations s' = delete (Client.Username c) (locations s)).
Proof. intros H. crunch; simpl; auto. Qed.

Lemma send_event_parked ev s :
  loop s = Parked -> send_event ev s = run ev s.
Proof.
  intros H. unfold send_event, hub_turn, get, mbind, M_bind, mret, M_ret.
  rewrite H. simpl. by rewrite H.
Qed.

Lemma has_room_not_full s c : has_room s c = true -> is_full s c = false.
Proof.
  unfold has_room, is_full. destruct (chans s !! Client.Send c) as [q|]; [|done].
  intros H. apply andb_true_iff in H as [_ ->]. by rewrite andb_false_r.
Qed.

(** A fan-out that finds no queue full leaves the active set alone. *)
Lemma run_Broadcast_quiet message s s1 s' :
  quiet s = true ->
  clients s1 = clients s -> chans s1 = chans s -> mutex s1 = mutex s ->
  run (Broadcast message) s1 = Ok tt s' ->
  clients s' = clients s /\ locations s' = locations s1 /\ loop s' = Parked.
Proof.
  intros Hq Hc Hch Hm E. unfold quiet in Hq. apply andb_true_iff in Hq as [Hok Hroom].
  destruct (run_Broadcast_spec message s1) as (s2 & E2 & Hd & Hout & _ & Hs2).
  { by rewrite (queues_ok_same s s1). }
  rewrite E in E2. injection E2 as <-.
  split_and!.
  - rewrite <- Hc. apply map_eq. intros c.
    destruct (decide (c ∈ active s1)) as [Hin|Hnin]; [|by apply Hout].
    specialize (Hd c Hin). unfold delivered in Hd.
    assert (is_full s1 c = false) as Hf.
    { apply has_room_not_full. unfold has_room. rewrite Hch.
      rewrite forallb_forall in Hroom. apply Hroom.
      apply list_elem_of_In. unfold active in *. by rewrite <- Hc. }
    rewrite Hf in Hd. tauto.
  - by rewrite Hs2.
  - by rewrite Hs2.
Qed.

(** One admissible operation keeps the keys with the sessions. *)
Lemma exec_preserves_keys op s s' :
  loop s = Parked -> keys_have_sessions s ->
  admissible op s = true -> exec op s = Ok tt s' ->
  loop s' = Parked /\ keys_have_sessions s'.
Proof.
  intros Hl Hinv Hadm E. destruct op as [c|c|identity record|envelope].
  - unfold exec in E. rewrite send_event_parked in E by done.
    split; [by apply run_locations in E as [? _]|].
    apply run_Register_frame in E as [Hc Hloc].
    intros k Hk. rewrite Hloc in Hk. destruct (Hinv k Hk) as (c' & Hc' & Hu).
    exists c'. split; [|done]. rewrite Hc.
    destruct (decide (c = c')) as [->|Hne];
      [rewrite lookup_insert_eq; by eexists|by rewrite lookup_insert_ne].
  - unfold exec in E. rewrite send_event_parked in E by done.
    split; [by apply run_locations in E as [? _]|].
    apply run_Unregister_frame in E as [(Hn & Hc & Hloc)|(Hc & Hloc)].
    + intros k Hk. rewrite Hloc in Hk. rewrite Hc. by apply Hinv.
    + intros k [v Hk]. rewrite Hloc in Hk. apply lookup_delete_Some in Hk as [Hne Hk].
      destruct (Hinv k (ex_intro _ v Hk)) as (c' & Hc' & Hu).
      exists c'. split; [|done]. rewrite Hc, lookup_delete_ne; [done|].
      intros ->. done.
  - simpl in Hadm. apply andb_true_iff in Hadm as [Hid Hq].
    assert (Hu : unlocked s = true).
    { unfold quiet, queues_ok in Hq. rewrite !andb_true_iff in Hq. tauto. }
    unfold exec in E. apply bind_inv in E as ([] & s1 & E1 & E2).
    destruct (updateLocation_unlocked s identity record Hu)
      as (s1' & E1' & Hloc & Hc & Hch & Hm & Hloop).
    rewrite E1 in E1'. injection E1' as <-.
    assert (loop s' = Parked /\ clients s' = clients s /\ locations s' = locations s1)
      as (Hl' & Hc' & Hloc').
    { rewrite Hl in Hloop. unfold hub_turn, get, mbind, M_bind, mret, M_ret in E2.
      destruct (json_Marshal (location_update record)) as [data|].
      - rewrite Hloop in E2.
        destruct (run_Broadcast_quiet data s s1 s' Hq Hc Hch Hm E2) as (? & ? & ?).
        done.
      - rewrite Hloop in E2. by simplify_eq. }
    split; [done|]. intros k Hk. rewrite Hloc', Hloc in Hk.
    destruct (decide (identity = k)) as [<-|Hne].
    + apply identity_active_spec in Hid. by rewrite Hc'.
    + rewrite lookup_insert_ne in Hk by done. rewrite Hc'. by apply Hinv.
  - simpl in Hadm.
    unfold exec in E. apply bind_inv in E as ([] & s1 & E1 & E2).
    assert (loop s' = Parked /\ clients s' = clients s /\ locations s' = locations s)
      as (Hl' & Hc' & Hloc').
    { unfold broadcastMessage in E1. unfold hub_turn in E2.
      destruct (json_Marshal envelope) as [data|].
      - unfold try_send_broadcast, mbind, M_bind, mret, M_ret in E1.
        rewrite Hl in E1. simplify_eq.
        unfold get, mbind, M_bind in E2. simpl in E2.
        destruct (run_Broadcast_quiet data s (set_loop (Delivered data) s) s')
          as (? & ? & ?); try done.
      - unfold log, modify in E1. simplify_eq.
        unfold get, mbind, M_bind, mret, M_ret in E2. simpl in E2.
        rewrite Hl in E2. by simplify_eq. }
    split; [done|]. intros k Hk. rewrite Hloc' in Hk. rewrite Hc'. by apply Hinv.
Qed.

Lemma admissible_trace_keeps_keys ops : forall s0 s,
  loop s0 = Parked -> keys_have_sessions s0 ->
  admissible_trace ops s0 = true -> execs ops s0 = Ok tt s ->
  keys_have_sessions s.
Proof.
  induction ops as [|op rest IH]; intros s0 s Hl Hinv Hadm E.
  - simpl in E. unfold mret, M_ret in E. by simplify_eq.
  - simpl in Hadm, E. apply andb_true_iff in Hadm as [Hop Hrest].
    apply bind_inv in E as ([] & s1 & E1 & E2). rewrite E1 in Hrest.
    destruct (exec_preserves_keys op s0 s1 Hl Hinv Hop E1) as [Hl1 Hinv1].
    by apply (IH s1).
Qed.

(** C4, as stated, fails.  After alice has connected she is in the
    active set, and the PresenceStore has no key for her identity. *)
Lemma active_session_without_key :
  steps [Accept true "alice" "id-a"] newHub = Ok tt one_session
  /\ is_active one_session alice = true
  /\ Client.Username alice = "alice"
  /\ locations one_session !! "alice" = None.
Proof. split_and!; vm_compute; reflexivity. Qed.

(** C4, amended.  Start from a state with the loop parked in which every
    key of the PresenceStore is the identity of an active session, as in
    the new Hub, and run Hub operations (Register, Unregister,
    UpdateLocation, Broadcast) such that each UpdateLocation is for the
    identity of a session active at that moment and no fan-out meets a
    full queue.  Then in the state reached, the PresenceStore contains a
    key for an identity only if a session with that identity is in the
    active set. *)
Theorem store_keys_have_active_sessions (ops : list Op) (s0 s : State) :
  loop s0 = Parked ->
  keys_active s0 = true ->
  admissible_trace ops s0 = true ->
  execs ops s0 = Ok tt s ->
  forall identity, is_Some (locations s !! identity) ->
    exists c, is_Some (clients s !! c) /\ Client.Username c = identity.
Proof.
  intros Hl Hk Hadm E.
  apply (admissible_trace_keeps_keys ops s0 s); try done.
  exact (proj1 (keys_active_spec s0) Hk).
Qed.

Lemma store_keys_have_active_sessions_witness :
  is_Some (locations
             (final (execs [OpUpdateLocation "alice" (position 1);
                            OpUpdateLocation "bob" (position 2);
                            OpBroadcast (user_connected bob);
                            OpUnregister alice] two_sessions))
           !! "bob")
  /\ exists c,
       is_Some (clients
                  (final (execs [OpUpdateLocation "alice" (position 1);
                                 OpUpdateLocation "bob" (position 2);
                                 OpBroadcast (user_connected bob);
                                 OpUnregister alice] two_sessions))
                !! c)
       /\ Client.Username c = "bob".
Proof.
  assert (H : is_Some (locations
             (final (execs [OpUpdateLocation "alice" (position 1);
                            OpUpdateLocation "bob" (position 2);
                            OpBroadcast (user_connected bob);
                            OpUnregister alice] two_sessions))
           !! "bob")).
  { vm_compute. eexists. reflexivity. }
  split; [exact H|].
  apply (store_keys_have_active_sessions
           [OpUpdateLocation "alice" (position 1);
            OpUpdateLocation "bob" (position 2);
            OpBroadcast (user_connected bob);
            OpUnregister alice] two_sessions
           (final (execs [OpUpdateLocation "alice" (position 1);
                          OpUpdateLocation "bob" (position 2);
                          OpBroadcast (user_connected bob);
                          OpUnregister alice] two_sessions)));
    [vm_compute; reflexivity ..|exact H].
Defined.

(** ** The states of the running program *)

Lemma NoDup_fmap_inj {A B} (f : A -> B) (l : list A) x y :
  NoDup (f <$> l) -> x ∈ l -> y ∈ l -> f x = f y -> x = y.
Proof.
  induction l as [|a l IH]; intros Hnd Hx Hy Hf.
  - by apply elem_of_nil in Hx.
  - rewrite fmap_cons in Hnd. apply NoDup_cons in Hnd as [Ha Hnd].
    apply elem_of_cons in Hx as [->|Hx]; apply elem_of_cons in Hy as [->|Hy].
    + done.
    + exfalso. apply Ha. rewrite Hf. by apply list_elem_of_fmap_2.
    + exfalso. apply Ha. rewrite <- Hf. by apply list_elem_of_fmap_2.
    + by apply IH.
Qed.

Lemma queues_ok_spec s :
  queues_ok s = true
  <-> (forall c, is_Some (clients s !! c) -> is_open s c = true)
      /\ (forall c c', is_Some (clients s !! c) -> is_Some (clients s !! c') ->
            Client.Send c = Client.Send c' -> c = c')
      /\ mutex s = mkMutex false 0.
Proof.
  split.
  - intros H. apply queues_ok_inv in H as (Ho & Hn & Hm). split_and!; [|
    |done].
    + intros c Hc. apply Ho. by apply active_elem.
    + intros c c' Hc Hc'. apply (NoDup_fmap_inj _ (active s)); [done| |];
        by apply active_elem.
  - intros (Ho & Hi & Hm). apply queues_ok_intro; [| |done].
    + intros c Hc. apply Ho. by apply active_elem.
    + apply NoDup_fmap_2_strong; [|apply active_NoDup].
      intros c c' Hc Hc'. apply Hi; by apply active_elem.
Qed.

Lemma is_open_Some s c : is_open s c = true -> is_Some (chans s !! Client.Send c).
Proof. unfold is_open. destruct (chans s !! Client.Send c); [by eexists|done]. Qed.

Lemma sound_same s s' :
  clients s' = clients s -> chans s' = chans s -> mutex s' = mutex s ->
  fresh s' = fresh s -> loop s' <> Busy -> sound s -> sound s'.
Proof.
  intros Hc Hq Hm Hf Hl (Hok & _ & Hb). split_and!; [|done|].
  - by rewrite (queues_ok_same s s').
  - intros id. rewrite Hq, Hf. apply Hb.
Qed.

(** A fan-out in a sound state ends in a sound state. *)
Lemma run_Broadcast_sound message s :
  queues_ok s = true ->
  (forall id, is_Some (chans s !! id) -> (id < fresh s)%nat) ->
  exists s', run (Broadcast message) s = Ok tt s'
    /\ sound s' /\ loop s' = Parked /\ fresh s' = fresh s
    /\ (forall c, is_Some (clients s' !! c) -> is_Some (clients s !! c))
    /\ (forall id, id ∉ Client.Send <$> active s -> chans s' !! id = chans s !! id).
Proof.
  intros Hok Hb.
  destruct (run_Broadcast_spec message s Hok) as (s' & E & Hd & Hout & Hfr & Hs').
  apply queues_ok_spec in Hok as (Ho & Hi & Hm).
  assert (Hsub : forall c, is_Some (clients s' !! c) -> is_Some (clients s !! c)).
  { intros c Hc. destruct (decide (c ∈ active s)) as [Hin|Hnin].
    - by apply active_elem.
    - by rewrite <- Hout. }
  assert (Hopen : forall c, is_Some (clients s' !! c) -> is_open s' c = true).
  { intros c Hc. assert (Hin : c ∈ active s) by by apply active_elem, Hsub.
    specialize (Hd c Hin). unfold delivered in Hd.
    destruct (is_full s c).
    - destruct Hd as [Hn _]. rewrite Hn in Hc. by destruct Hc.
    - tauto. }
  exists s'. split_and!; try done; try (by rewrite Hs').
  split_and!.
  - apply queues_ok_spec. split_and!; [done| |by rewrite Hs'].
    intros c c' Hc Hc'. apply Hi; by apply Hsub.
  - by rewrite Hs'.
  - intros id Hid. replace (fresh s') with (fresh s) by by rewrite Hs'.
    apply Hb. destruct (decide (id ∈ Client.Send <$> active s)) as [Hin|Hnin].
    + apply list_elem_of_fmap in Hin as (c & -> & Hc).
      apply is_open_Some, Ho. by apply active_elem.
    + by rewrite <- Hfr.
Qed.

Lemma hub_turn_sound s :
  sound s ->
  exists s', hub_turn s = Ok tt s'
    /\ sound s' /\ loop s' = Parked /\ fresh s' = fresh s
    /\ (forall c, is_Some (clients s' !! c) -> is_Some (clients s !! c))
    /\ (forall id, id ∉ Client.Send <$> active s -> chans s' !! id = chans s !! id).
Proof.
  intros (Hok & Hl & Hb). unfold hub_turn, get, mbind, M_bind, mret, M_ret.
  destruct (loop s) as [|message|] eqn:El; [|by apply run_Broadcast_sound|done].
  exists s. split_and!; try done. split_and!; try done. by rewrite El.
Qed.

Lemma run_Unregister_sound s c :
  sound s -> loop s = Parked ->
  exists s', run (Unregister c) s = Ok tt s' /\ sound s'.
Proof.
  intros (Hok & Hl & Hb) Hp.
  pose proof Hok as Hok'. apply queues_ok_spec in Hok' as (Ho & Hi & Hm).
  assert (Hu : unlocked s = true).
  { unfold queues_ok in Hok. apply andb_true_iff in Hok. tauto. }
  destruct (clients s !! c) as [b|] eqn:Hc.
  - assert (Hs : is_Some (clients s !! c)) by by eexists.
    pose proof (Ho c Hs) as Hopen. unfold is_open in Hopen.
    destruct (chans s !! Client.Send c) as [q|] eqn:Hq; [|done].
    apply negb_true_iff in Hopen.
    eexists. split; [by apply (run_Unregister_active s c q)|].
    split_and!; [|simpl; by rewrite Hp|].
    + apply queues_ok_spec. simpl. split_and!; [| |done].
      * intros c' Hc'. apply lookup_delete_is_Some in Hc' as [Hne Hc'].
        unfold is_open. simpl. rewrite lookup_insert_ne.
        { by apply Ho. }
        { intros Heq. apply Hne. by apply Hi. }
      * intros c1 c2 H1 H2. apply lookup_delete_is_Some in H1 as [_ H1].
        apply lookup_delete_is_Some in H2 as [_ H2]. by apply Hi.
    + simpl. intros id Hid. apply Hb.
      destruct (decide (id = Client.Send c)) as [->|Hne]; [by eexists|].
      by rewrite lookup_insert_ne in Hid.
  - exists s. split; [by apply run_Unregister_inactive|done].
Qed.

(** The register case for a client whose queue is new: open, empty, of
    positive capacity and no other session's. *)
Lemma run_Register_sound s c n :
  sound s -> loop s = Parked ->
  chans s !! Client.Send c = Some (mkChan [] (S n) false) ->
  (forall c', is_Some (clients s !! c') -> Client.Send c' <> Client.Send c) ->
  exists s', run (Register c) s = Ok tt s' /\ sound s' /\ is_Some (clients s' !! c).
Proof.
  intros (Hok & Hl & Hb) Hp Hq Hnew.
  pose proof Hok as Hok'. apply queues_ok_spec in Hok' as (Ho & Hi & Hm).
  assert (exists s', run (Register c) s = Ok tt s'
            /\ clients s' = <[c := true]> (clients s)
            /\ (forall id, id <> Client.Send c -> chans s' !! id = chans s !! id)
            /\ is_open s' c = true
            /\ mutex s' = mkMutex false 0 /\ loop s' = Parked /\ fresh s' = fresh s)
    as (s' & E & Hc & Hfr & Hopen & Hm' & Hl' & Hf').
  { rewrite run_Register_drops. unfold_hub. simpl. rewrite Hm. simpl.
    destruct (0 <? size (locations s))%nat; simpl.
    - destruct (json_Marshal _) as [data|]; simpl.
      + rewrite Hq. simpl. eexists. split; [reflexivity|]. simpl.
        unfold is_open. simpl. rewrite lookup_insert_eq. simpl.
        split_and!; try done. intros id Hid. by rewrite lookup_insert_ne.
      + eexists. split; [reflexivity|]. simpl. unfold is_open. simpl. rewrite Hq.
        by split_and!.
    - eexists. split; [reflexivity|]. simpl. unfold is_open. simpl. rewrite Hq.
      by split_and!. }
  exists s'. split; [done|]. split; [|rewrite Hc, lookup_insert_eq; by eexists].
  split_and!; [|by rewrite Hl'|].
  - apply queues_ok_spec. split_and!; [| |done].
    + intros c' Hc'. rewrite Hc in Hc'.
      destruct (decide (c = c')) as [<-|Hne]; [done|].
      rewrite lookup_insert_ne in Hc' by done.
      unfold is_open. rewrite Hfr by by apply Hnew. by apply Ho.
    + intros c1 c2 H1 H2 Heq. rewrite Hc in H1, H2.
      destruct (decide (c = c1)) as [<-|Hne1]; destruct (decide (c = c2)) as [<-|Hne2];
        try done.
      * rewrite lookup_insert_ne in H2 by done. by destruct (Hnew c2 H2).
      * rewrite lookup_insert_ne in H1 by done. by destruct (Hnew c1 H1).
      * rewrite lookup_insert_ne in H1, H2 by done. by apply Hi.
  - intros id Hid. rewrite Hf'. apply Hb.
    destruct (decide (id = Client.Send c)) as [->|Hne]; [by eexists|].
    by rewrite <- Hfr.
Qed.

Lemma send_event_after_turn ev s s1 :
  hub_turn s = Ok tt s1 -> loop s1 = Parked -> send_event ev s = run ev s1.
Proof.
  intros E Hl. unfold send_event. rewrite (bind_Ok _ _ _ _ _ E).
  unfold get, mbind, M_bind. by rewrite Hl.
Qed.

Lemma updateLocation_sound s identity record :
  sound s -> exists s', updateLocation identity record s = Ok tt s' /\ sound s'.
Proof.
  intros Hs. pose proof Hs as (Hok & Hl & _).
  apply queues_ok_spec in Hok as (_ & _ & Hm).
  unfold updateLocation, broadcastMessage, Lock, Unlock, modify, log,
    try_send_broadcast, mbind, M_bind, mret, M_ret.
  rewrite Hm. simpl.
  destruct (json_Marshal _); simpl; [destruct (loop s) eqn:El; simpl|];
    (eexists; split; [reflexivity|]);
    (apply (sound_same s); simpl; rewrite ?El; done).
Qed.

Lemma add_log_sound line s : sound s -> sound (add_log line s).
Proof. intros Hs. by apply (sound_same s); try apply Hs. Qed.

Lemma set_conns_sound f s : sound s -> sound (set_conns f s).
Proof. intros Hs. by apply (sound_same s); try apply Hs. Qed.

Lemma WriteMessage_sound conn m s :
  sound s -> exists s', WriteMessage conn m s = Ok tt s' /\ sound s'.
Proof.
  intros Hs. unfold WriteMessage. repeat case_match;
    (eexists; split; [reflexivity|]); by try apply set_conns_sound.
Qed.

Lemma Conn_Close_sound conn s :
  sound s -> exists s', Conn_Close conn s = Ok tt s' /\ sound s'.
Proof.
  intros Hs. unfold Conn_Close. repeat case_match;
    (eexists; split; [reflexivity|]); by try apply set_conns_sound.
Qed.

(** A turn of an inbound loop keeps the state sound and never panics. *)
Lemma readPump_sound c r s :
  sound s -> exists continue s', readPump c r s = Ok continue s' /\ sound s'.
Proof.
  intros Hs. destruct r as [unexpected|message].
  - unfold readPump.
    assert (exists s0, (if unexpected then log "WebSocket error" else mret tt) s
                       = Ok tt s0 /\ sound s0) as (s0 & E0 & Hs0).
    { destruct unexpected; eexists; (split; [reflexivity|]);
        [by apply add_log_sound|done]. }
    destruct (hub_turn_sound s0 Hs0) as (s1 & E1 & Hs1 & Hl1 & _).
    destruct (run_Unregister_sound s1 c Hs1 Hl1) as (s2 & E2 & Hs2).
    destruct (Conn_Close_sound (Client.Conn c) s2 Hs2) as (s3 & E3 & Hs3).
    exists false, s3. split; [|done].
    rewrite (bind_Ok _ _ _ _ _ E0).
    assert (E : send_event (Unregister c) s0 = Ok tt s2).
    { by rewrite (send_event_after_turn _ s0 s1). }
    rewrite (bind_Ok _ _ _ _ _ E). by rewrite (bind_Ok _ _ _ _ _ E3).
  - unfold readPump.
    destruct (json_Unmarshal_Message message) as [msg|];
      [|exists true; eexists; split; [reflexivity|by apply add_log_sound]].
    destruct (String.eqb (Inbound.Type_ msg) "location_update");
      [|exists true; eexists; split; [reflexivity|done]].
    destruct (json_Marshal_Data (Inbound.Data_ msg)) as [dataBytes|];
      [|exists true; eexists; split; [reflexivity|by apply add_log_sound]].
    destruct (json_Unmarshal_LocationData dataBytes) as [l|];
      [|exists true; eexists; split; [reflexivity|by apply add_log_sound]].
    destruct (updateLocation_sound
                (add_log ("Received location update from " +:+ Client.Username c) s)
                (Client.Username c)
                (LocationData.mk (Client.Username c) (LocationData.Latitude l)
                   (LocationData.Longitude l) (LocationData.Timestamp l)))
      as (s' & E & Hs'); [by apply add_log_sound|].
    exists true, s'. split; [|done].
    unfold log, modify, mbind, M_bind, mret, M_ret in *. simpl. by rewrite E.
Qed.

(** A turn of an outbound loop writes out the head of the queue, or
    waits; it does not panic. *)
Lemma writePump_sound c s :
  sound s ->
  match writePump c s with
  | Ok _ s' => sound s'
  | Panic _ _ => False
  | Blocked _ => True
  end.
Proof.
  intros Hs. unfold writePump, recv, mbind, M_bind.
  destruct (chans s !! Client.Send c) as [q|] eqn:Hq; [|done].
  destruct (buf q) as [|v rest] eqn:Hbuf.
  - destruct (closed q); [|done].
    destruct (WriteMessage_sound (Client.Conn c) CloseMessage s Hs) as (s1 & E1 & Hs1).
    rewrite E1.
    destruct (Conn_Close_sound (Client.Conn c) s1 Hs1) as (s2 & E2 & Hs2).
    by rewrite E2.
  - assert (Hs1 : sound (set_chans (insert (Client.Send c)
                                      (mkChan rest (cap q) (closed q))) s)).
    { destruct Hs as (Hok & Hl & Hb).
      apply queues_ok_spec in Hok as (Ho & Hi & Hm). split_and!; [|done|].
      - apply queues_ok_spec. split_and!; [|done|done].
        intros c' Hc'. specialize (Ho c' Hc'). unfold is_open in *. simpl.
        destruct (decide (Client.Send c' = Client.Send c)) as [Heq|Hne].
        + rewrite Heq, lookup_insert_eq. simpl. by rewrite Heq, Hq in Ho.
        + by rewrite lookup_insert_ne.
      - simpl. intros id Hid. apply Hb.
        destruct (decide (id = Client.Send c)) as [->|Hne]; [by eexists|].
        by rewrite lookup_insert_ne in Hid. }
    destruct (WriteMessage_sound (Client.Conn c) (TextMessage v) _ Hs1) as (s2 & E2 & Hs2).
    by rewrite E2.
Qed.

(** [handleWebSocket] registers a client with a queue of its own, new
    and empty, and the registration goes through. *)
Lemma handleWebSocket_sound upgrade_ok username id s :
  sound s ->
  exists r s', handleWebSocket upgrade_ok username id s = Ok r s' /\ sound s'
    /\ match r with
       | Some client => is_Some (clients s' !! client)
       | None => upgrade_ok = false
       end.
Proof.
  intros Hs. unfold handleWebSocket. destruct upgrade_ok.
  2: { exists None. eexists. split; [reflexivity|]. split; [|done].
       by apply add_log_sound. }
  set (name := if String.eqb username "" then "Anonymous" else username).
  set (conn := fresh s). set (ch := S conn).
  set (client := Client.mk (S ch) id name conn ch).
  set (s3 := set_fresh (S (S ch))
               (set_fresh (S ch)
                  (set_chans (insert ch (mkChan [] 256 false))
                     (set_fresh ch (set_conns (insert conn (mkConn [] false)) s))))).
  pose proof Hs as (Hok & Hl & Hb).
  apply queues_ok_spec in Hok as (Ho & Hi & Hm).
  assert (Hold : forall c', is_Some (clients s !! c') -> Client.Send c' <> ch).
  { intros c' Hc' Heq. specialize (Hb _ (is_open_Some _ _ (Ho c' Hc'))).
    rewrite Heq in Hb. subst ch conn. lia. }
  assert (Hs3 : sound s3).
  { split_and!; [|done|].
    - apply queues_ok_spec. split_and!; [|done|done].
      intros c' Hc'. unfold is_open. simpl.
      rewrite lookup_insert_ne by (intros Heq; by apply (Hold c' Hc')).
      by apply Ho.
    - simpl. intros i Hi'. destruct (decide (i = ch)) as [->|Hne]; [lia|].
      rewrite lookup_insert_ne in Hi' by done. specialize (Hb i Hi').
      subst ch conn. lia. }
  destruct (hub_turn_sound s3 Hs3) as (s4 & E4 & Hs4 & Hl4 & Hf4 & Hsub & Hfr).
  assert (Hq4 : chans s4 !! ch = Some (mkChan [] 256 false)).
  { rewrite Hfr; [simpl; by rewrite lookup_insert_eq|].
    intros Hin. apply list_elem_of_fmap in Hin as (c' & Heq & Hc').
    apply active_elem in Hc'. by apply (Hold c' Hc'). }
  destruct (run_Register_sound s4 client 255 Hs4 Hl4 Hq4) as (s5 & E5 & Hs5 & Hc5).
  { intros c' Hc'. apply Hold. by apply Hsub in Hc'. }
  exists (Some client), s5. split; [|done].
  unfold make_chan, modify, get, mbind, M_bind, mret, M_ret. simpl.
  fold conn ch name client s3.
  pose proof (send_event_after_turn (Register client) s3 s4 E4 Hl4) as E.
  unfold mbind, M_bind in E. rewrite E, E5. done.
Qed.

Lemma step_sound st s :
  sound s ->
  match step st s with
  | Ok _ s' => sound s'
  | Panic _ _ => False
  | Blocked _ => True
  end.
Proof.
  intros Hs. destruct st as [upgrade_ok username id|c r|c|]; simpl.
  - destruct (handleWebSocket_sound upgrade_ok username id s Hs) as (r & s' & E & Hs' & _).
    unfold mbind, M_bind. by rewrite E.
  - destruct (readPump_sound c r s Hs) as (b & s' & E & Hs').
    unfold mbind, M_bind. by rewrite E.
  - pose proof (writePump_sound c s Hs) as H. unfold mbind, M_bind.
    by destruct (writePump c s).
  - destruct (hub_turn_sound s Hs) as (s' & E & Hs' & _). by rewrite E.
Qed.

(** However the goroutines of the program are interleaved from the new
    Hub on, no step panics, and every state reached is sound: in
    particular [queues_ok] holds whenever the loop of the Hub starts a
    fan-out. *)
Lemma steps_sound sts : forall s,
  sound s ->
  match steps sts s with
  | Ok _ s' => sound s'
  | Panic _ _ => False
  | Blocked _ => True
  end.
Proof.
  induction sts as [|st rest IH]; intros s Hs; simpl.
  - done.
  - pose proof (step_sound st s Hs) as H. unfold mbind, M_bind.
    destruct (step st s) as [[] s1| |]; [|done|done]. by apply IH.
Qed.

Lemma newHub_sound : sound newHub.
Proof.
  split_and!; [done|done|]. intros id [q Hq]. simpl in Hq.
  by rewrite lookup_empty in Hq.
Qed.

Lemma program_states_queues_ok sts s :
  steps sts newHub = Ok tt s -> queues_ok s = true.
Proof.
  intros E. pose proof (steps_sound sts newHub newHub_sound) as H.
  rewrite E in H. apply H.
Qed.

(** ** Saturated queues in the running program *)

Lemma hub_turn_spec s :
  sound s ->
  exists s', hub_turn s = Ok tt s' /\ sound s' /\ loop s' = Parked
    /\ locations s' = locations s /\ conns s' = conns s /\ fresh s' = fresh s
    /\ (forall c, is_Some (clients s' !! c) -> is_Some (clients s !! c))
    /\ (forall c, is_Some (clients s !! c) -> clients s' !! c = None -> is_closed s' c = true)
    /\ (forall id, id ∉ Client.Send <$> active s -> chans s' !! id = chans s !! id)
    /\ (loop s = Parked -> s' = s).
Proof.
  intros Hs. destruct (hub_turn_sound s Hs) as (s' & E & Hs' & Hl' & Hf' & Hsub & Hfr).
  exists s'. pose proof Hs as (Hok & Hnb & _).
  assert (Hcases : (loop s = Parked /\ s' = s)
                   \/ exists message, loop s = Delivered message
                        /\ run (Broadcast message) s = Ok tt s').
  { pose proof E as E0. unfold hub_turn, get, mbind, M_bind, mret, M_ret in E0.
    destruct (loop s) as [|message|] eqn:El.
    - left. by simplify_eq.
    - right. by exists message.
    - done. }
  destruct Hcases as [[El ->]|(message & El & Erun)].
  - split_and!; try done. intros c [b Hc] Hn. by rewrite Hc in Hn.
  - destruct (run_Broadcast_spec message s Hok) as (s2 & E2 & Hd & _ & _ & Hs2).
    rewrite Erun in E2. injection E2 as <-.
    split_and!; try done.
    + by rewrite Hs2.
    + by rewrite Hs2.
    + intros c Hc Hn. specialize (Hd c ltac:(by apply active_elem)).
      unfold delivered in Hd. destruct (is_full s c); [tauto|].
      destruct Hd as (Heq & _). rewrite Hn in Heq. rewrite <- Heq in Hc. by destruct Hc.
    + intros Hp. congruence.
Qed.

Lemma run_Register_new s c n :
  mutex s = mkMutex false 0 ->
  chans s !! Client.Send c = Some (mkChan [] (S n) false) ->
  exists s', run (Register c) s = Ok tt s'
    /\ clients s' = <[c := true]> (clients s)
    /\ chans s' = <[Client.Send c := mkChan (snapshot (locations s)) (S n) false]> (chans s)
    /\ locations s' = locations s /\ conns s' = conns s.
Proof.
  intros Hm Hq. rewrite run_Register_drops. unfold_hub. simpl. rewrite Hm. simpl.
  unfold snapshot, current_locations.
  destruct (0 <? size (locations s))%nat; simpl.
  - destruct (json_Marshal _) as [data|]; simpl.
    + rewrite Hq. simpl. eexists. split; [reflexivity|]. by split_and!.
    + eexists. split; [reflexivity|]. simpl. split_and!; try done.
      by rewrite insert_id.
  - eexists. split; [reflexivity|]. simpl. split_and!; try done.
    by rewrite insert_id.
Qed.

Lemma handleWebSocket_accepts (s : State) (username id : string) :
  sound s ->
  exists client s', handleWebSocket true username id s = Ok (Some client) s'
    /\ Client.ID client = id
    /\ Client.Username client = identity_of username
    /\ clients s !! client = None
    /\ clients s' !! client = Some true
    /\ (forall c, is_Some (clients s' !! c) -> c <> client ->
          Client.Send c <> Client.Send client)
    /\ chans s' !! Client.Send client = Some (mkChan (snapshot (locations s)) 256 false)
    /\ locations s' = locations s
    /\ (forall c, is_Some (clients s !! c) -> in_or_closed s' c).
Proof.
  intros Hs.
  set (conn := fresh s). set (ch := S conn).
  set (client := Client.mk (S ch) id (identity_of username) conn ch).
  set (s3 := set_fresh (S (S ch))
               (set_fresh (S ch)
                  (set_chans (insert ch (mkChan [] 256 false))
                     (set_fresh ch (set_conns (insert conn (mkConn [] false)) s))))).
  pose proof Hs as (Hok & Hl & Hb).
  apply queues_ok_spec in Hok as (Ho & Hi & Hm).
  assert (Hold : forall c', is_Some (clients s !! c') -> Client.Send c' <> ch).
  { intros c' Hc' Heq. specialize (Hb _ (is_open_Some _ _ (Ho c' Hc'))).
    rewrite Heq in Hb. subst ch conn. lia. }
  assert (Hs3 : sound s3).
  { split_and!; [|done|].
    - apply queues_ok_spec. split_and!; [|done|done].
      intros c' Hc'. unfold is_open. simpl.
      rewrite lookup_insert_ne by (intros Heq; by apply (Hold c' Hc')).
      by apply Ho.
    - simpl. intros i Hi'. destruct (decide (i = ch)) as [->|Hne]; [lia|].
      rewrite lookup_insert_ne in Hi' by done. specialize (Hb i Hi').
      subst ch conn. lia. }
  destruct (hub_turn_spec s3 Hs3)
    as (s4 & E4 & Hs4 & Hl4 & Hloc4 & _ & _ & Hsub & Hcl4 & Hfr & _).
  assert (Hq4 : chans s4 !! Client.Send client = Some (mkChan [] 256 false)).
  { simpl. rewrite Hfr; [simpl; by rewrite lookup_insert_eq|].
    intros Hin. apply list_elem_of_fmap in Hin as (c' & Heq & Hc').
    apply active_elem in Hc'. by apply (Hold c' Hc'). }
  assert (Hnew : forall c', is_Some (clients s4 !! c') -> Client.Send c' <> Client.Send client).
  { intros c' Hc'. apply Hold. by apply Hsub in Hc'. }
  destruct (run_Register_sound s4 client 255 Hs4 Hl4 Hq4 Hnew) as (s5 & E5 & Hs5 & _).
  destruct (run_Register_new s4 client 255) as (s5' & E5' & Hc5 & Hch5 & Hloc5 & _);
    [by apply queues_ok_spec, Hs4|done|].
  rewrite E5 in E5'. injection E5' as <-.
  exists client, s5. split_and!; try done.
  - unfold handleWebSocket, make_chan, modify, get, mbind, M_bind, mret, M_ret. simpl.
    fold conn ch. unfold identity_of in client. fold client s3.
    pose proof (send_event_after_turn (Register client) s3 s4 E4 Hl4) as E.
    unfold mbind, M_bind in E. rewrite E, E5. done.
  - destruct (clients s !! client) eqn:Hc; [|done].
    exfalso. by apply (Hold client ltac:(by eexists)).
  - by rewrite Hc5, lookup_insert_eq.
  - intros c Hc Hne Heq. rewrite Hc5, lookup_insert_ne in Hc by done.
    by apply (Hnew c).
  - rewrite Hch5, lookup_insert_eq, Hloc4. done.
  - by rewrite Hloc5, Hloc4.
  - intros c Hc.
    assert (Hc3 : is_Some (clients s3 !! c)) by done.
    destruct (clients s4 !! c) as [b|] eqn:Hc4.
    + left. rewrite Hc5. destruct (decide (c = client)) as [->|Hne].
      * rewrite lookup_insert_eq. by eexists.
      * rewrite lookup_insert_ne by done. rewrite Hc4. by eexists.
    + right. pose proof (Hcl4 c Hc3 Hc4) as Hz. unfold is_closed in *.
      rewrite Hch5, lookup_insert_ne; [done|].
      intros Heq. by apply (Hold c Hc).
Qed.

Lemma handleWebSocket_new_session (s : State) (username id : string) :
  sound s ->
  exists client s', handleWebSocket true username id s = Ok (Some client) s'
    /\ Client.ID client = id
    /\ Client.Username client = identity_of username
    /\ clients s !! client = None
    /\ clients s' !! client = Some true
    /\ (forall c, is_Some (clients s' !! c) -> c <> client ->
          Client.Send c <> Client.Send client)
    /\ chans s' !! Client.Send client = Some (mkChan (snapshot (locations s)) 256 false)
    /\ locations s' = locations s.
Proof.
  intros Hs.
  destruct (handleWebSocket_accepts s username id Hs)
    as (client & s' & H1 & H2 & H3 & H4 & H5 & H6 & H7 & H8 & _).
  exists client, s'. by split_and!.
Qed.

(** C5.  In every state the running program reaches, saturation costs
    the saturated session its place and nothing else.  A fan-out ends
    with the loop of the Hub back on its [select]: the active sessions
    whose queues are full are dropped, each queue closed and left as it
    was; every other active session stays as it was in the active set,
    its queue open and the envelope appended to it; no session becomes
    active by it, and the PresenceStore is as before.  At registration
    no session is saturated: [handleWebSocket] registers the queue it
    has just made, so the new session is active with an open queue that
    has room.  And whatever steps follow, none panics. *)
Theorem saturation_disconnects_only_that_session (pre : list Step) (s : State) :
  steps pre newHub = Ok tt s ->
  (forall message, loop s = Delivered message ->
     exists s', hub_turn s = Ok tt s'
       /\ loop s' = Parked
       /\ locations s' = locations s
       /\ (forall c, clients s !! c = None -> clients s' !! c = None)
       /\ forall c, is_Some (clients s !! c) ->
            if is_full s c
            then clients s' !! c = None /\ is_closed s' c = true
                 /\ queue s' c = queue s c
            else clients s' !! c = clients s !! c /\ is_open s' c = true
                 /\ queue s' c = (queue s c ++ [message])%list)
  /\ (forall username id,
        exists client s', handleWebSocket true username id s = Ok (Some client) s'
          /\ clients s !! client = None
          /\ is_active s' client = true
          /\ has_room s' client = true)
  /\ (forall sts, match steps sts s with Panic _ _ => False | _ => True end).
Proof.
  intros Hpre.
  assert (Hs : sound s).
  { pose proof (steps_sound pre newHub newHub_sound) as H. by rewrite Hpre in H. }
  split_and!.
  - intros message Hl.
    destruct (run_Broadcast_spec message s (proj1 Hs)) as (s' & E & Hd & Hn & _ & Hs').
    exists s'. split_and!.
    + unfold hub_turn, get, mbind, M_bind. by rewrite Hl.
    + by rewrite Hs'.
    + by rewrite Hs'.
    + intros c Hc. rewrite Hn; [done|]. intros Hin. apply active_elem in Hin.
      rewrite Hc in Hin. by destruct Hin.
    + intros c Hc. apply Hd. by apply active_elem.
  - intros username id.
    destruct (handleWebSocket_new_session s username id Hs)
      as (client & s' & E & _ & _ & Hnew & Hc & _ & Hq & _).
    exists client, s'. split_and!; try done.
    + apply bool_decide_eq_true. by eexists.
    + unfold has_room. rewrite Hq. simpl. unfold snapshot.
      destruct (0 <? size (locations s))%nat; [|done].
      by destruct (json_Marshal _).
  - intros sts. pose proof (steps_sound sts s Hs) as H.
    by destruct (steps sts s).
Qed.

Lemma saturation_disconnects_only_that_session_witness :
  exists s', hub_turn overflowing = Ok tt s'
    /\ loop s' = Parked
    /\ locations s' = locations overflowing
    /\ (forall c, clients overflowing !! c = None -> clients s' !! c = None)
    /\ forall c, is_Some (clients overflowing !! c) ->
         if is_full overflowing c
         then clients s' !! c = None /\ is_closed s' c = true
              /\ queue s' c = queue overflowing c
         else clients s' !! c = clients overflowing !! c /\ is_open s' c = true
              /\ queue s' c
                 = (queue overflowing c ++ [Encoded (location_update (position 2))])%list.
Proof.
  apply (proj1 (saturation_disconnects_only_that_session overflow_run overflowing
                  ltac:(vm_compute; reflexivity))
               (Encoded (location_update (position 2)))).
  vm_compute; reflexivity.
Defined.

(** ** What every step keeps *)

Lemma preserves_ret {A} (P : State -> Prop) (a : A) : preserves P (mret a).
Proof. by intros s Hs. Qed.

Lemma preserves_bind {A B} (P : State -> Prop) (m : M A) (k : A -> M B) :
  preserves P m -> (forall a, preserves P (k a)) -> preserves P (m ≫= k).
Proof.
  intros Hm Hk s Hs. specialize (Hm s Hs). unfold mbind, M_bind.
  destruct (m s) as [a s1|msg s1|s1]; simpl in *; try done. by apply Hk.
Qed.

Lemma preserves_defer {A} (P : State -> Prop) (cleanup : M unit) (body : M A) :
  preserves P cleanup -> preserves P body -> preserves P (defer cleanup body).
Proof.
  intros Hc Hb s Hs. specialize (Hb s Hs). unfold defer.
  destruct (body s) as [a s1|msg s1|s1]; simpl in *; try done;
    specialize (Hc s1 Hb); by destruct (cleanup s1).
Qed.

Lemma preserves_get (P : State -> Prop) : preserves P get.
Proof. by intros s Hs. Qed.

Lemma preserves_block {A} (P : State -> Prop) : preserves P (@block A).
Proof. by intros s Hs. Qed.

Section ChannelInvariant.

(** A property of the channels and of the counter of [make], kept by
    what [main.go] does to channels: a send that goes through, a
    [close], a receive, and making a channel of 256 places. *)
Variable Q : gmap nat Chan -> nat -> Prop.

Hypothesis Q_send : forall chs next ch q v,
  Q chs next -> chs !! ch = Some q -> closed q = false ->
  (length (buf q) < cap q)%nat ->
  Q (<[ch := mkChan (buf q ++ [v]) (cap q) false]> chs) next.
Hypothesis Q_close : forall chs next ch q,
  Q chs next -> chs !! ch = Some q -> closed q = false ->
  Q (<[ch := mkChan (buf q) (cap q) true]> chs) next.
Hypothesis Q_recv : forall chs next ch q v rest,
  Q chs next -> chs !! ch = Some q -> buf q = v :: rest ->
  Q (<[ch := mkChan rest (cap q) (closed q)]> chs) next.
Hypothesis Q_make : forall chs next,
  Q chs next -> Q (<[next := mkChan [] 256 false]> chs) (S next).
Hypothesis Q_next : forall chs next, Q chs next -> Q chs (S next).

Let P (s : State) : Prop := Q (chans s) (fresh s).

Local Lemma keeps_modify (f : State -> State) :
  (forall s, chans (f s) = chans s) -> (forall s, fresh (f s) = fresh s) ->
  preserves P (modify f).
Proof. intros Hc Hf s Hs. unfold P, modify in *. simpl. by rewrite Hc, Hf. Qed.

Local Lemma keeps_log line : preserves P (log line).
Proof. by apply keeps_modify. Qed.

Local Lemma keeps_Lock : preserves P Lock.
Proof. intros s Hs. unfold Lock. by case_match. Qed.

Local Lemma keeps_Unlock : preserves P Unlock.
Proof. intros s Hs. unfold Unlock. by case_match. Qed.

Local Lemma keeps_RLock : preserves P RLock.
Proof. intros s Hs. unfold RLock. by case_match. Qed.

Local Lemma keeps_RUnlock : preserves P RUnlock.
Proof. intros s Hs. unfold RUnlock. by case_match. Qed.

Local Lemma keeps_try_send ch v : preserves P (try_send ch v).
Proof.
  intros s Hs. unfold try_send.
  destruct (chans s !! ch) as [q|] eqn:E; [|done].
  destruct (closed q) eqn:Hc; [done|].
  destruct (length (buf q) <? cap q)%nat eqn:Hr; [|done].
  simpl. apply Q_send; try done. by apply Nat.ltb_lt.
Qed.

Local Lemma keeps_close ch : preserves P (close ch).
Proof.
  intros s Hs. unfold close.
  destruct (chans s !! ch) as [q|] eqn:E; [|done].
  destruct (closed q) eqn:Hc; [done|]. simpl. by apply Q_close.
Qed.

Local Lemma keeps_recv ch : preserves P (recv ch).
Proof.
  intros s Hs. unfold recv.
  destruct (chans s !! ch) as [q|] eqn:E; [|done].
  destruct (buf q) as [|v rest] eqn:Hb; [by destruct (closed q)|].
  simpl. by apply (Q_recv _ _ _ _ v).
Qed.

Local Lemma keeps_try_send_broadcast data : preserves P (try_send_broadcast data).
Proof. intros s Hs. unfold try_send_broadcast. by destruct (loop s). Qed.

Local Lemma keeps_WriteMessage conn m : preserves P (WriteMessage conn m).
Proof. intros s Hs. unfold WriteMessage. by repeat case_match. Qed.

Local Lemma keeps_Conn_Close conn : preserves P (Conn_Close conn).
Proof. intros s Hs. unfold Conn_Close. by repeat case_match. Qed.

Local Lemma keeps_broadcastMessage message : preserves P (broadcastMessage message).
Proof.
  unfold broadcastMessage. destruct (json_Marshal message); [|apply keeps_log].
  apply preserves_bind; [apply keeps_try_send_broadcast|].
  intros []; [apply preserves_ret|apply keeps_log].
Qed.

Local Lemma keeps_sendCurrentLocations client : preserves P (sendCurrentLocations client).
Proof.
  unfold sendCurrentLocations. apply preserves_bind; [apply keeps_RLock|]. intros _.
  apply preserves_defer; [apply keeps_RUnlock|].
  apply preserves_bind; [apply preserves_get|]. intros h.
  destruct (0 <? size (locations h))%nat; [|apply preserves_ret].
  destruct (json_Marshal _); [|apply keeps_log].
  apply preserves_bind; [apply keeps_try_send|].
  intros []; [apply preserves_ret|apply keeps_close].
Qed.

Local Lemma keeps_updateLocation username location :
  preserves P (updateLocation username location).
Proof.
  unfold updateLocation.
  apply preserves_bind; [apply keeps_Lock|]. intros _.
  apply preserves_bind; [by apply keeps_modify|]. intros _.
  apply preserves_bind; [apply keeps_Unlock|]. intros _.
  apply keeps_broadcastMessage.
Qed.

Local Lemma keeps_deliver message client : preserves P (deliver message client).
Proof.
  unfold deliver. apply preserves_bind; [apply keeps_try_send|].
  intros []; [apply preserves_ret|].
  apply preserves_bind; [apply keeps_close|]. intros _. by apply keeps_modify.
Qed.

Local Lemma keeps_range message keys : preserves P (range keys (deliver message)).
Proof.
  induction keys as [|c rest IH]; simpl; [apply preserves_ret|].
  apply preserves_bind; [apply keeps_deliver|]. by intros _.
Qed.

Local Lemma keeps_run ev : preserves P (run ev).
Proof.
  unfold run. apply preserves_bind; [by apply keeps_modify|]. intros _.
  apply preserves_bind; [|intros _; by apply keeps_modify].
  destruct ev as [client|client|message]; simpl.
  - apply preserves_bind; [apply keeps_Lock|]. intros _.
    apply preserves_bind; [by apply keeps_modify|]. intros _.
    apply preserves_bind; [apply keeps_Unlock|]. intros _.
    apply preserves_bind; [apply keeps_log|]. intros _.
    apply preserves_bind; [apply keeps_sendCurrentLocations|]. intros _.
    apply keeps_broadcastMessage.
  - apply preserves_bind; [apply keeps_Lock|]. intros _.
    apply preserves_bind; [apply preserves_get|]. intros h.
    apply preserves_bind; [|intros _; apply keeps_Unlock].
    destruct (clients h !! client); [|apply preserves_ret].
    apply preserves_bind; [by apply keeps_modify|]. intros _.
    apply preserves_bind; [apply keeps_close|]. intros _.
    apply preserves_bind; [by apply keeps_modify|]. intros _.
    apply preserves_bind; [apply keeps_log|]. intros _.
    apply keeps_broadcastMessage.
  - apply preserves_bind; [apply keeps_RLock|]. intros _.
    apply preserves_bind; [apply preserves_get|]. intros h.
    apply preserves_bind; [apply keeps_range|]. intros _. apply keeps_RUnlock.
Qed.

Local Lemma keeps_hub_turn : preserves P hub_turn.
Proof.
  unfold hub_turn. apply preserves_bind; [apply preserves_get|]. intros h.
  destruct (loop h); [apply preserves_ret|apply keeps_run|apply preserves_ret].
Qed.

Local Lemma keeps_send_event ev : preserves P (send_event ev).
Proof.
  unfold send_event. apply preserves_bind; [apply keeps_hub_turn|]. intros _.
  apply preserves_bind; [apply preserves_get|]. intros h.
  destruct (loop h); [apply keeps_run|apply preserves_block|apply preserves_block].
Qed.

Local Lemma keeps_writePump c : preserves P (writePump c).
Proof.
  unfold writePump. apply preserves_bind; [apply keeps_recv|].
  intros [message|].
  - apply preserves_bind; [apply keeps_WriteMessage|]. intros _. apply preserves_ret.
  - apply preserves_bind; [apply keeps_WriteMessage|]. intros _.
    apply preserves_bind; [apply keeps_Conn_Close|]. intros _. apply preserves_ret.
Qed.

Local Lemma keeps_readPump c r : preserves P (readPump c r).
Proof.
  unfold readPump. destruct r as [unexpected|message].
  - apply preserves_bind.
    { destruct unexpected; [apply keeps_log|apply preserves_ret]. }
    intros _. apply preserves_bind; [apply keeps_send_event|]. intros _.
    apply preserves_bind; [apply keeps_Conn_Close|]. intros _. apply preserves_ret.
  - repeat case_match;
      repeat (first [apply preserves_ret | apply keeps_log
                    | apply keeps_updateLocation
                    | apply preserves_bind; [|intros _]]).
Qed.

Local Lemma keeps_handleWebSocket upgrade_ok username id :
  preserves P (handleWebSocket upgrade_ok username id).
Proof.
  unfold handleWebSocket. destruct upgrade_ok.
  2: { apply preserves_bind; [apply keeps_log|]. intros _. apply preserves_ret. }
  intros s Hs.
  unfold make_chan, modify, get, mbind, M_bind, mret, M_ret. simpl.
  match goal with
  | |- P (final (match send_event ?ev ?st with _ => _ end)) =>
      assert (Hst : P st) by (unfold P in *; simpl; by apply Q_next, Q_make, Q_next);
      pose proof (keeps_send_event ev st Hst) as H; destruct (send_event ev st)
  end; exact H.
Qed.

(** Whatever the goroutines do, in whatever order, the property
    stays. *)
Lemma steps_preserve sts : preserves P (steps sts).
Proof.
  induction sts as [|st rest IH]; simpl; [apply preserves_ret|].
  apply preserves_bind; [|by intros _].
  destruct st as [upgrade_ok username id|c r|c|]; simpl.
  - apply preserves_bind; [apply keeps_handleWebSocket|]. intros _. apply preserves_ret.
  - apply preserves_bind; [apply keeps_readPump|]. intros _. apply preserves_ret.
  - apply preserves_bind; [apply keeps_writePump|]. intros _. apply preserves_ret.
  - apply keeps_hub_turn.
Qed.

End ChannelInvariant.

(** ** Properties of the program beyond the claims *)

(** X1. Start the program, and let connections be accepted, inbound and
    outbound loops make their turns and the loop of the Hub be scheduled
    in any order, on any frames: no step panics.  As long as no step has
    to wait, every active session has an open queue that no other active
    session shares, and nobody holds the mutex. *)
Theorem program_never_panics (sts : list Step) :
  match steps sts newHub with
  | Ok _ s => queues_ok s = true
  | Panic _ _ => False
  | Blocked _ => True
  end.
Proof.
  pose proof (steps_sound sts newHub newHub_sound) as H.
  destruct (steps sts newHub); [apply H|done|done].
Qed.

(** X2. In every state of the running program, however a run ends, a
    channel has 256 places and never more than 256 values waiting. *)
Theorem queues_hold_at_most_256 (sts : list Step) (id : nat) (q : Chan) :
  chans (final (steps sts newHub)) !! id = Some q ->
  cap q = 256%nat /\ (length (buf q) <= 256)%nat.
Proof.
  revert id q. change (bounded (chans (final (steps sts newHub)))
                               (fresh (final (steps sts newHub)))).
  apply (steps_preserve bounded); unfold bounded.
  - intros chs next ch q v H Hq Hc Hr id q' Hid.
    destruct (decide (ch = id)) as [->|Hne].
    + rewrite lookup_insert_eq in Hid. injection Hid as <-. simpl.
      destruct (H id q Hq) as [Hcap Hlen]. split; [done|].
      rewrite length_app. simpl. lia.
    + rewrite lookup_insert_ne in Hid by done. by apply (H id).
  - intros chs next ch q H Hq Hc id q' Hid.
    destruct (decide (ch = id)) as [->|Hne].
    + rewrite lookup_insert_eq in Hid. injection Hid as <-. simpl. by apply (H id).
    + rewrite lookup_insert_ne in Hid by done. by apply (H id).
  - intros chs next ch q v rest H Hq Hb id q' Hid.
    destruct (decide (ch = id)) as [->|Hne].
    + rewrite lookup_insert_eq in Hid. injection Hid as <-. simpl.
      destruct (H id q Hq) as [Hcap Hlen]. split; [done|].
      rewrite Hb in Hlen. simpl in Hlen. lia.
    + rewrite lookup_insert_ne in Hid by done. by apply (H id).
  - intros chs next H id q' Hid.
    destruct (decide (next = id)) as [->|Hne].
    + rewrite lookup_insert_eq in Hid. injection Hid as <-. simpl. split; [done|lia].
    + rewrite lookup_insert_ne in Hid by done. by apply (H id).
  - done.
  - intros id q Hid. simpl in Hid. by rewrite lookup_empty in Hid.
Qed.

Lemma queues_hold_at_most_256_witness :
  cap (mkChan [Encoded (location_update (position 1))] 256 false) = 256%nat
  /\ (length (buf (mkChan [Encoded (location_update (position 1))] 256 false)) <= 256)%nat.
Proof.
  apply (queues_hold_at_most_256
           [Accept true "alice" "id-a"; Read alice (ReadMessage (update_frame "bob" 1));
            Schedule] 1).
  vm_compute. reflexivity.
Defined.

(** A closed channel stays closed and only drains. *)
Lemma closed_channel_drains (sts : list Step) (s : State) (id : nat) (q : Chan) :
  sound s ->
  chans s !! id = Some q -> closed q = true ->
  exists q', chans (final (steps sts s)) !! id = Some q'
    /\ closed q' = true /\ suffix (buf q') (buf q).
Proof.
  intros Hs Hq Hc. destruct Hs as (_ & _ & Hb).
  enough (closed_with id (buf q) (chans (final (steps sts s))) (fresh (final (steps sts s))))
    as [_ H] by exact H.
  apply (steps_preserve (closed_with id (buf q))); unfold closed_with.
  - intros chs next ch q0 v [Hlt (q1 & H1 & Hc1 & Hs1)] Hq0 Hc0 Hr. split; [done|].
    exists q1. rewrite lookup_insert_ne; [done|]. intros ->. congruence.
  - intros chs next ch q0 [Hlt (q1 & H1 & Hc1 & Hs1)] Hq0 Hc0. split; [done|].
    exists q1. rewrite lookup_insert_ne; [done|]. intros ->. congruence.
  - intros chs next ch q0 v rest [Hlt (q1 & H1 & Hc1 & Hs1)] Hq0 Hb0. split; [done|].
    destruct (decide (ch = id)) as [->|Hne].
    + rewrite lookup_insert_eq. eexists. split; [done|]. simpl.
      assert (q0 = q1) as -> by congruence. split; [done|].
      rewrite Hb0 in Hs1. by apply suffix_cons_l in Hs1.
    + exists q1. by rewrite lookup_insert_ne.
  - intros chs next [Hlt (q1 & H1 & Hc1 & Hs1)]. split; [lia|].
    exists q1. rewrite lookup_insert_ne; [done|lia].
  - intros chs next [Hlt H]. split; [lia|done].
  - split; [apply Hb; by eexists|]. by exists q.
Qed.

(** A session whose queue is closed is out of the active set for good,
    and its queue only drains. *)
Lemma closed_session_stays_out (sts : list Step) (s s' : State) (c : Client.t) :
  sound s -> is_closed s c = true -> steps sts s = Ok tt s' ->
  clients s' !! c = None /\ is_closed s' c = true /\ suffix (queue s' c) (queue s c).
Proof.
  intros Hs Hc Hsts.
  assert (Hs' : sound s').
  { pose proof (steps_sound sts s Hs) as H. by rewrite Hsts in H. }
  unfold is_closed in Hc.
  destruct (chans s !! Client.Send c) as [q|] eqn:Hq; [|done].
  destruct (closed_channel_drains sts s _ q Hs Hq Hc) as (q' & Hq' & Hc' & Hsuf).
  rewrite Hsts in Hq'. simpl in Hq'.
  split_and!.
  - destruct (clients s' !! c) as [b|] eqn:Hcl; [|done]. exfalso.
    destruct Hs' as (Hok & _). apply queues_ok_spec in Hok as (Ho & _).
    specialize (Ho c ltac:(by eexists)). unfold is_open in Ho.
    rewrite Hq' in Ho. by rewrite Hc' in Ho.
  - unfold is_closed. by rewrite Hq'.
  - unfold queue. by rewrite Hq, Hq'.
Qed.

(** What the steps of the goroutines do to a session that is active. *)
Lemma writePump_clients c0 s b s' :
  writePump c0 s = Ok b s' -> clients s' = clients s.
Proof.
  unfold writePump, recv, WriteMessage, Conn_Close, mbind, M_bind, mret, M_ret.
  intros H. repeat (case_match; simpl in *; try done; simplify_eq); done.
Qed.

Lemma readPump_message_clients c0 message s b s' :
  sound s -> readPump c0 (ReadMessage message) s = Ok b s' -> clients s' = clients s.
Proof.
  intros Hs H. unfold readPump in H.
  destruct (json_Unmarshal_Message message) as [msg|];
    [|unfold log, modify, mbind, M_bind, mret, M_ret in H; by simplify_eq].
  destruct (String.eqb (Inbound.Type_ msg) "location_update");
    [|unfold mret, M_ret in H; by simplify_eq].
  destruct (json_Marshal_Data (Inbound.Data_ msg)) as [dataBytes|];
    [|unfold log, modify, mbind, M_bind, mret, M_ret in H; by simplify_eq].
  destruct (json_Unmarshal_LocationData dataBytes) as [l|];
    [|unfold log, modify, mbind, M_bind, mret, M_ret in H; by simplify_eq].
  destruct (updateLocation_unlocked
              (add_log ("Received location update from " +:+ Client.Username c0) s)
              (Client.Username c0)
              (LocationData.mk (Client.Username c0) (LocationData.Latitude l)
                 (LocationData.Longitude l) (LocationData.Timestamp l)))
    as (s1 & E & _ & Hcl & _).
  { destruct Hs as (Hok & _). unfold queues_ok in Hok.
    apply andb_true_iff in Hok as [_ Hu]. exact Hu. }
  unfold log, modify, mbind, M_bind, mret, M_ret in *. simpl in H.
  rewrite E in H. simplify_eq. by rewrite Hcl.
Qed.

Lemma run_Unregister_leaves s c0 s' c :
  sound s -> loop s = Parked -> run (Unregister c0) s = Ok tt s' ->
  in_or_closed s c -> in_or_closed s' c.
Proof.
  intros Hs Hl E Hc. pose proof Hs as (Hok & _).
  apply queues_ok_spec in Hok as (Ho & _ & Hm).
  assert (Hu : unlocked s = true) by (unfold unlocked; by rewrite Hm).
  destruct (clients s !! c0) as [b|] eqn:Hc0.
  - pose proof (Ho c0 ltac:(by eexists)) as Hopen. unfold is_open in Hopen.
    destruct (chans s !! Client.Send c0) as [q|] eqn:Hq; [|done].
    apply negb_true_iff in Hopen.
    rewrite (run_Unregister_active s c0 q) in E; [|by eexists|done|done|done|done].
    injection E as <-. unfold in_or_closed, is_closed. simpl.
    destruct (decide (Client.Send c = Client.Send c0)) as [Heq|Hne].
    + right. by rewrite Heq, lookup_insert_eq.
    + rewrite lookup_insert_ne by done.
      destruct Hc as [Hc|Hc]; [left|right; exact Hc].
      rewrite lookup_delete_ne; [done|]. intros ->. done.
  - rewrite run_Unregister_inactive in E by done. by injection E as <-.
Qed.

Lemma readPump_error_leaves c0 u s b s' c :
  sound s -> readPump c0 (ReadError u) s = Ok b s' ->
  is_Some (clients s !! c) -> in_or_closed s' c.
Proof.
  intros Hs H Hc. unfold readPump in H.
  assert (exists s0, (if u then log "WebSocket error" else mret tt) s = Ok tt s0
                     /\ sound s0 /\ clients s0 = clients s) as (s0 & E0 & Hs0 & Hcl0).
  { destruct u; eexists; (split; [reflexivity|]); split; try done;
      try (by apply add_log_sound). }
  rewrite (bind_Ok _ _ _ _ _ E0) in H.
  destruct (hub_turn_spec s0 Hs0)
    as (s1 & E1 & Hs1 & Hl1 & _ & _ & _ & _ & Hcl1 & _).
  rewrite <- Hcl0 in Hc.
  assert (H1 : in_or_closed s1 c).
  { destruct (clients s1 !! c) as [b1|] eqn:Hc1; [left; by eexists|].
    right. by apply Hcl1. }
  apply bind_inv in H as ([] & s2 & E2 & H).
  rewrite (send_event_after_turn _ s0 s1 E1 Hl1) in E2.
  pose proof (run_Unregister_leaves s1 c0 s2 c Hs1 Hl1 E2 H1) as H2.
  unfold Conn_Close, mbind, M_bind, mret, M_ret in H.
  destruct (conns s2 !! Client.Conn c0); by simplify_eq.
Qed.

Lemma step_leaves st s s' c :
  sound s -> step st s = Ok tt s' -> in_or_closed s c -> in_or_closed s' c.
Proof.
  intros Hs E [Hc|Hc].
  2: { right. destruct (closed_session_stays_out [st] s s' c Hs Hc) as (_ & H & _); [|done].
       simpl. unfold mbind, M_bind. rewrite E. done. }
  destruct st as [upgrade_ok username id|c0 r|c0|]; simpl in E.
  - apply bind_inv in E as (r & s1 & E & Er). unfold mret, M_ret in Er. simplify_eq.
    destruct upgrade_ok.
    + destruct (handleWebSocket_accepts s username id Hs)
        as (client & s2 & E2 & _ & _ & _ & _ & _ & _ & _ & Hin).
      rewrite E in E2. simplify_eq. by apply Hin.
    + unfold handleWebSocket, log, modify, mbind, M_bind, mret, M_ret in E.
      simplify_eq. by left.
  - apply bind_inv in E as (b & s1 & E & Er). unfold mret, M_ret in Er. simplify_eq.
    destruct r as [u|message].
    + by apply (readPump_error_leaves c0 u s b).
    + left. by rewrite (readPump_message_clients c0 message s b s').
  - apply bind_inv in E as (b & s1 & E & Er). unfold mret, M_ret in Er. simplify_eq.
    left. by rewrite (writePump_clients c0 s b s').
  - destruct (hub_turn_spec s Hs) as (s1 & E1 & _ & _ & _ & _ & _ & _ & Hcl1 & _).
    rewrite E in E1. simplify_eq.
    destruct (clients s1 !! c) as [b1|] eqn:Hc1; [left; by eexists|].
    right. by apply Hcl1.
Qed.

Lemma steps_leave sts : forall s s' c,
  sound s -> steps sts s = Ok tt s' -> in_or_closed s c -> in_or_closed s' c.
Proof.
  induction sts as [|st rest IH]; intros s s' c Hs E Hc; simpl in E.
  - unfold mret, M_ret in E. by simplify_eq.
  - apply bind_inv in E as ([] & s1 & E1 & E2).
    pose proof (step_sound st s Hs) as Hs1. rewrite E1 in Hs1.
    apply (IH s1 s' c Hs1 E2). by apply (step_leaves st s s1 c).
Qed.

(** X3. A session that has left the active set never returns.  In the
    running program, take a session that was active at some moment and
    is active no longer, dropped by a fan-out or unregistered.  Whatever
    steps follow, frames of its own connection and new connections
    included, it is not in the active set again, its queue is closed, and
    the queue holds a tail of what it held: nothing is enqueued for it
    again. *)
Theorem departed_session_never_returns
    (pre mid sts : list Step) (s0 s s' : State) (c : Client.t) :
  steps pre newHub = Ok tt s0 ->
  is_Some (clients s0 !! c) ->
  steps mid s0 = Ok tt s ->
  clients s !! c = None ->
  steps sts s = Ok tt s' ->
  clients s' !! c = None /\ is_closed s' c = true /\ suffix (queue s' c) (queue s c).
Proof.
  intros Hpre Hc Hmid Hout Hsts.
  assert (Hs0 : sound s0).
  { pose proof (steps_sound pre newHub newHub_sound) as H. by rewrite Hpre in H. }
  assert (Hs : sound s).
  { pose proof (steps_sound mid s0 Hs0) as H. by rewrite Hmid in H. }
  destruct (steps_leave mid s0 s c Hs0 Hmid (or_introl Hc)) as [Hin|Hcl].
  - rewrite Hout in Hin. by destruct Hin.
  - by apply (closed_session_stays_out sts s s' c).
Qed.

Lemma departed_session_never_returns_witness :
  clients (final (steps later_run overflowed)) !! alice = None
  /\ is_closed (final (steps later_run overflowed)) alice = true
  /\ suffix (queue (final (steps later_run overflowed)) alice) (queue overflowed alice).
Proof.
  apply (departed_session_never_returns
           [Accept true "alice" "id-a"] (flood ++ [Schedule])%list later_run
           one_session overflowed (final (steps later_run overflowed)) alice).
  - vm_compute; reflexivity.
  - vm_compute. by eexists.
  - vm_compute; reflexivity.
  - vm_compute; reflexivity.
  - vm_compute; reflexivity.
Defined.

Lemma run_Unregister_after s c s' :
  run (Unregister c) s = Ok tt s' ->
  clients s' !! c = None /\ unlocked s' = true /\ loop s' = Parked.
Proof.
  intros H. crunch; simpl; rewrite ?lookup_delete_eq; split_and!; try done.
  all: unfold unlocked; simpl;
    match goal with
    | H : _ || negb (_ =? 0)%nat = false |- _ =>
        apply orb_false_iff in H as [_ H]; apply negb_false_iff in H
    end; by rewrite ?H.
Qed.

(** X4. Unregistering twice is unregistering once: when an unregister
    has gone through, in whatever state it was asked, asking again for
    the same session changes nothing at all, not even the log. *)
Theorem unregister_twice_is_once (s s' : State) (c : Client.t) :
  exec (OpUnregister c) s = Ok tt s' ->
  exec (OpUnregister c) s' = Ok tt s'.
Proof.
  intros E. unfold exec, send_event in E.
  apply bind_inv in E as ([] & s1 & _ & E).
  apply bind_inv in E as (h & s2 & E1 & E).
  unfold get in E1. simplify_eq.
  destruct (loop s2); [|done|done].
  apply run_Unregister_after in E as (Hc & Hu & Hl).
  unfold exec. rewrite send_event_parked by done.
  by apply run_Unregister_inactive.
Qed.

Lemma unregister_twice_is_once_witness :
  exec (OpUnregister alice) (final (exec (OpUnregister alice) two_sessions))
  = Ok tt (final (exec (OpUnregister alice) two_sessions)).
Proof.
  apply (unregister_twice_is_once two_sessions). vm_compute. reflexivity.
Defined.

(** X5. Two sessions under one identity share one PresenceStore entry,
    and the first of them to leave takes it along: when two different
    active sessions carry the same username and one is unregistered, the
    other is still active and the store has no entry for their
    identity. *)
Theorem unregister_deletes_shared_entry (s : State) (c c' : Client.t) :
  queues_ok s = true -> loop s = Parked ->
  is_Some (clients s !! c) -> is_Some (clients s !! c') -> c <> c' ->
  Client.Username c = Client.Username c' ->
  exists s', exec (OpUnregister c) s = Ok tt s'
    /\ clients s' !! c = None
    /\ clients s' !! c' = clients s !! c'
    /\ is_open s' c' = true
    /\ locations s' !! Client.Username c' = None.
Proof.
  intros Hok Hl Hc Hc' Hne Hu.
  pose proof Hok as Hok'. apply queues_ok_spec in Hok' as (Ho & Hi & Hm).
  pose proof (Ho c Hc) as Hopen. unfold is_open in Hopen.
  destruct (chans s !! Client.Send c) as [q|] eqn:Hq; [|done].
  apply negb_true_iff in Hopen.
  eexists. split.
  { unfold exec. rewrite send_event_parked by done.
    apply (run_Unregister_active s c q); try done.
    unfold queues_ok in Hok. apply andb_true_iff in Hok. tauto. }
  simpl. split_and!.
  - by rewrite lookup_delete_eq.
  - by rewrite lookup_delete_ne.
  - unfold is_open. simpl. rewrite lookup_insert_ne; [by apply Ho|].
    intros Heq. apply Hne. by apply Hi.
  - rewrite <- Hu. by rewrite lookup_delete_eq.
Qed.

Lemma unregister_deletes_shared_entry_witness :
  exists s',
    exec (OpUnregister alice)
      (final (steps [Accept true "alice" "id-a"; Accept true "alice" "id-b";
                     Read alice (ReadMessage (update_frame "alice" 1)); Schedule] newHub))
    = Ok tt s'
    /\ clients s' !! alice = None
    /\ clients s' !! Client.mk 5 "id-b" "alice" 3 4
       = clients (final (steps [Accept true "alice" "id-a"; Accept true "alice" "id-b";
                                Read alice (ReadMessage (update_frame "alice" 1));
                                Schedule] newHub))
           !! Client.mk 5 "id-b" "alice" 3 4
    /\ is_open s' (Client.mk 5 "id-b" "alice" 3 4) = true
    /\ locations s' !! "alice" = None.
Proof.
  apply (unregister_deletes_shared_entry
           (final (steps [Accept true "alice" "id-a"; Accept true "alice" "id-b";
                          Read alice (ReadMessage (update_frame "alice" 1)); Schedule] newHub))
           alice (Client.mk 5 "id-b" "alice" 3 4)).
  - vm_compute; reflexivity.
  - vm_compute; reflexivity.
  - vm_compute. by eexists.
  - vm_compute. by eexists.
  - discriminate.
  - reflexivity.
Defined.

Lemma writePump_turns_drain (c : Client.t) (b : list bytes) : forall s n cl w,
  chans s !! Client.Send c = Some (mkChan b n cl) ->
  conns s !! Client.Conn c = Some (mkConn w false) ->
  exists s', writePump_turns (length b) c s = Ok true s'
    /\ chans s' !! Client.Send c = Some (mkChan [] n cl)
    /\ conns s' !! Client.Conn c = Some (mkConn (w ++ (TextMessage <$> b)) false)
    /\ clients s' = clients s /\ locations s' = locations s /\ loop s' = loop s.
Proof.
  induction b as [|v rest IH]; intros s n cl w Hq Hk.
  - exists s. simpl. rewrite app_nil_r. by split_and!.
  - simpl. unfold writePump, recv, WriteMessage, mbind, M_bind, mret, M_ret.
    rewrite Hq. simpl. rewrite Hk. simpl.
    destruct (IH (set_conns (insert (Client.Conn c) (mkConn (w ++ [TextMessage v])%list false))
                    (set_chans (insert (Client.Send c) (mkChan rest n cl)) s))
                 n cl (w ++ [TextMessage v])%list)
      as (s' & E & Hq' & Hk' & Hc & Hl & Hp).
    { simpl. by rewrite lookup_insert_eq. }
    { simpl. by rewrite lookup_insert_eq. }
    exists s'. split; [exact E|]. rewrite <- app_assoc in Hk'. by split_and!.
Qed.

(** X6. The outbound loop writes the queue out in the order of the
    enqueues.  With a queue holding [b] and a connection that is open,
    as many turns as there are frames write them to the connection as
    text messages, first in first out, and empty the queue; they touch
    neither the active set nor the PresenceStore.  The next turn then
    waits if the queue is open, and if it is closed writes a close
    message, closes the connection and ends the loop. *)
Theorem writePump_writes_in_order
    (s : State) (c : Client.t) (b : list bytes) (n : nat) (cl : bool)
    (w : list WsOut) :
  chans s !! Client.Send c = Some (mkChan b n cl) ->
  conns s !! Client.Conn c = Some (mkConn w false) ->
  exists s', writePump_turns (length b) c s = Ok true s'
    /\ chans s' !! Client.Send c = Some (mkChan [] n cl)
    /\ conns s' !! Client.Conn c = Some (mkConn (w ++ (TextMessage <$> b)) false)
    /\ clients s' = clients s /\ locations s' = locations s
    /\ writePump c s'
       = if cl
         then Ok false
                (set_conns (insert (Client.Conn c)
                              (mkConn (w ++ (TextMessage <$> b) ++ [CloseMessage]) true)) s')
         else Blocked s'.
Proof.
  intros Hq Hk.
  destruct (writePump_turns_drain c b s n cl w Hq Hk)
    as (s' & E & Hq' & Hk' & Hc & Hl & _).
  exists s'. split_and!; try done.
  unfold writePump, recv, WriteMessage, Conn_Close, mbind, M_bind, mret, M_ret.
  rewrite Hq'. simpl. destruct cl; [|done].
  rewrite Hk'. simpl. rewrite lookup_insert_eq. simpl.
  unfold set_conns. simpl. rewrite insert_insert_eq, <- app_assoc. done.
Qed.

Lemma writePump_writes_in_order_witness :
  exists s',
    writePump_turns 256 alice (final (exec (OpUpdateLocation "alice" (position 1000)) flooded))
    = Ok true s'
    /\ chans s' !! 1 = Some (mkChan [] 256 true)
    /\ conns s' !! 0
       = Some (mkConn ([] ++ (TextMessage <$>
                  map (fun t => Encoded (location_update (position (Z.of_nat t)))) (seq 0 256)))
                 false)
    /\ clients s' = clients (final (exec (OpUpdateLocation "alice" (position 1000)) flooded))
    /\ locations s' = locations (final (exec (OpUpdateLocation "alice" (position 1000)) flooded))
    /\ writePump alice s'
       = Ok false
           (set_conns (insert 0
              (mkConn ([] ++ (TextMessage <$>
                  map (fun t => Encoded (location_update (position (Z.of_nat t)))) (seq 0 256))
                  ++ [CloseMessage]) true)) s').
Proof.
  apply (writePump_writes_in_order
           (final (exec (OpUpdateLocation "alice" (position 1000)) flooded)) alice
           (map (fun t => Encoded (location_update (position (Z.of_nat t)))) (seq 0 256))
           256 true []);
    vm_compute; reflexivity.
Defined.

(** X7. The store and the fan-out can part: when a second
    [updateLocation] is called before the loop has taken up the envelope
    of the first, the second record is stored and its envelope is
    dropped.  The sessions are then sent the first record, those with a
    full queue are dropped, and nothing tells them of the second. *)
Theorem update_on_the_heels_is_stored_not_sent
    (s : State) (u1 u2 : string) (l1 l2 : LocationData.t) :
  queues_ok s = true -> loop s = Parked -> marshals l1 = true ->
  exists s', (updateLocation u1 l1;; updateLocation u2 l2;; hub_turn) s = Ok tt s'
    /\ locations s' = <[u2 := l2]> (<[u1 := l1]> (locations s))
    /\ forall c, is_Some (clients s !! c) ->
         if is_full s c
         then clients s' !! c = None /\ queue s' c = queue s c
         else clients s' !! c = clients s !! c
              /\ queue s' c = (queue s c ++ [Encoded (location_update l1)])%list.
Proof.
  intros Hok Hl Hr.
  assert (Hu : unlocked s = true).
  { unfold queues_ok in Hok. apply andb_true_iff in Hok. tauto. }
  destruct (updateLocation_unlocked s u1 l1 Hu)
    as (s1 & E1 & Hloc1 & Hcl1 & Hch1 & Hmu1 & Hloop1).
  unfold json_Marshal, location_update in Hloop1. simpl in Hloop1.
  rewrite Hr, Hl in Hloop1.
  assert (Hu1 : unlocked s1 = true) by (unfold unlocked; by rewrite Hmu1).
  pose proof (updateLocation_busy s1 u2 l2 Hu1) as E2.
  rewrite Hloop1 in E2. specialize (E2 ltac:(done)).
  match type of E2 with _ = Ok tt ?st => set (s2 := st) in * end.
  destruct (run_Broadcast_spec (Encoded (Message.mk "location_update" (DataLocation l1))) s2)
    as (s' & E' & Hd & _ & _ & Hs').
  { rewrite (queues_ok_same s s2); [done| | |]; subst s2; simpl; done. }
  exists s'. split_and!.
  - rewrite (bind_Ok _ _ _ _ _ E1), (bind_Ok _ _ _ _ _ E2).
    unfold hub_turn, get, mbind, M_bind. subst s2. simpl. by rewrite Hloop1.
  - rewrite Hs'. subst s2. simpl. by rewrite Hloc1.
  - intros c Hc.
    assert (Hin : c ∈ active s2).
    { apply active_elem. subst s2. simpl. by rewrite Hcl1. }
    specialize (Hd c Hin).
    apply (delivered_same _ s s2) in Hd; [|subst s2; simpl; done..].
    unfold delivered, location_update in *. destruct (is_full s c); tauto.
Qed.

Lemma update_on_the_heels_is_stored_not_sent_witness :
  exists s', (updateLocation "alice" (position 1);;
              updateLocation "alice" (position 2);; hub_turn) two_sessions = Ok tt s'
    /\ locations s' = <[ "alice" := position 2 ]>
                        (<[ "alice" := position 1 ]> (locations two_sessions))
    /\ forall c, is_Some (clients two_sessions !! c) ->
         if is_full two_sessions c
         then clients s' !! c = None /\ queue s' c = queue two_sessions c
         else clients s' !! c = clients two_sessions !! c
              /\ queue s' c
                 = (queue two_sessions c ++ [Encoded (location_update (position 1))])%list.
Proof.
  apply (update_on_the_heels_is_stored_not_sent two_sessions "alice" "alice"
           (position 1) (position 2));
    vm_compute; reflexivity.
Defined.

Lemma run_keeps_cap ev s s' id q :
  (id < fresh s)%nat -> chans s !! id = Some q -> run ev s = Ok tt s' ->
  exists q', chans s' !! id = Some q' /\ cap q' = cap q.
Proof.
  intros Hlt Hq E.
  set (Q := fun (chs : gmap nat Chan) (next : nat) =>
              (id < next)%nat /\ exists q', chs !! id = Some q' /\ cap q' = cap q).
  assert (Hsend : forall chs next ch q0 v,
            Q chs next -> chs !! ch = Some q0 -> closed q0 = false ->
            (length (buf q0) < cap q0)%nat ->
            Q (<[ch := mkChan (buf q0 ++ [v]) (cap q0) false]> chs) next).
  { intros chs next ch q0 v [Hl (q1 & H1 & Hc1)] Hq0 Hc0 Hr. split; [done|].
    destruct (decide (ch = id)) as [->|Hne].
    - rewrite lookup_insert_eq. eexists. split; [done|]. simpl. congruence.
    - exists q1. by rewrite lookup_insert_ne. }
  assert (Hclose : forall chs next ch q0,
            Q chs next -> chs !! ch = Some q0 -> closed q0 = false ->
            Q (<[ch := mkChan (buf q0) (cap q0) true]> chs) next).
  { intros chs next ch q0 [Hl (q1 & H1 & Hc1)] Hq0 Hc0. split; [done|].
    destruct (decide (ch = id)) as [->|Hne].
    - rewrite lookup_insert_eq. eexists. split; [done|]. simpl. congruence.
    - exists q1. by rewrite lookup_insert_ne. }
  pose proof (keeps_run Q Hsend Hclose ev s) as H. rewrite E in H. simpl in H.
  apply H. split; [done|]. by exists q.
Qed.

(** X8. Every subscriber sees broadcasts in the order the loop took them
    up.  In a state of the running program, two broadcast turns one after
    the other leave, on the queue of every active session that had room
    for two, the two envelopes at the end, the first before the
    second. *)
Theorem broadcasts_are_queued_in_order
    (pre : list Step) (s : State) (c : Client.t) (q : Chan) (m1 m2 : bytes) :
  steps pre newHub = Ok tt s ->
  is_Some (clients s !! c) ->
  chans s !! Client.Send c = Some q ->
  (length (buf q) + 2 <= cap q)%nat ->
  exists s', (run (Broadcast m1);; run (Broadcast m2)) s = Ok tt s'
    /\ clients s' !! c = clients s !! c
    /\ queue s' c = (queue s c ++ [m1; m2])%list.
Proof.
  intros Hpre Hc Hq Hroom.
  assert (Hs : sound s).
  { pose proof (steps_sound pre newHub newHub_sound) as H. by rewrite Hpre in H. }
  destruct Hs as (Hok & Hl & Hb).
  destruct (run_Broadcast_spec m1 s Hok) as (s1 & E1 & Hd1 & _).
  destruct (run_Broadcast_sound m1 s Hok Hb) as (s1' & E1' & (Hok1 & _) & _).
  rewrite E1 in E1'. injection E1' as <-.
  destruct (run_Broadcast_spec m2 s1 Hok1) as (s2 & E2 & Hd2 & _).
  pose proof (proj1 (queues_ok_spec s) Hok) as (Ho & _ & _).
  pose proof (Ho c Hc) as Hopen. unfold is_open in Hopen. rewrite Hq in Hopen.
  apply negb_true_iff in Hopen.
  assert (Hf : is_full s c = false).
  { unfold is_full. rewrite Hq, Hopen. simpl. apply negb_false_iff, Nat.ltb_lt. lia. }
  specialize (Hd1 c ltac:(by apply active_elem)). unfold delivered in Hd1.
  rewrite Hf in Hd1. destruct Hd1 as (Hc1 & Ho1 & Hq1).
  destruct (run_keeps_cap (Broadcast m1) s s1 (Client.Send c) q) as (q1 & Hq1' & Hcap);
    [apply Hb; by eexists|done|done|].
  assert (Hf1 : is_full s1 c = false).
  { unfold is_full, is_open, queue in *. rewrite Hq1' in *. rewrite Hq in Hq1.
    apply negb_true_iff in Ho1. rewrite Ho1. simpl.
    apply negb_false_iff, Nat.ltb_lt. rewrite Hq1, length_app, Hcap. simpl. lia. }
  specialize (Hd2 c ltac:(apply active_elem; by rewrite Hc1)). unfold delivered in Hd2.
  rewrite Hf1 in Hd2. destruct Hd2 as (Hc2 & _ & Hq2).
  exists s2. split_and!.
  - by rewrite (bind_Ok _ _ _ _ _ E1).
  - by rewrite Hc2.
  - by rewrite Hq2, Hq1, <- app_assoc.
Qed.

Lemma broadcasts_are_queued_in_order_witness :
  exists s',
    (run (Broadcast (Encoded (user_connected alice)));;
     run (Broadcast (Encoded (user_connected bob)))) two_sessions = Ok tt s'
    /\ clients s' !! bob = clients two_sessions !! bob
    /\ queue s' bob
       = (queue two_sessions bob
          ++ [Encoded (user_connected alice); Encoded (user_connected bob)])%list.
Proof.
  apply (broadcasts_are_queued_in_order
           [Accept true "alice" "id-a"; Accept true "bob" "id-b"] two_sessions bob
           (mkChan [] 256 false)).
  - vm_compute; reflexivity.
  - vm_compute. by eexists.
  - vm_compute; reflexivity.
  - vm_compute; lia.
Defined.

(** X9. An accepted connection is registered there and then.  In a state
    of the running program, [handleWebSocket] with a successful upgrade
    returns a client that was not there before, carrying the given id and
    the username of the query, "Anonymous" for an empty one; the client
    is in the active set; its queue is its own, open, of 256 places, and
    holds the snapshot of the PresenceStore as its only frame, or nothing
    when the store is empty; the store itself is as before. *)
Theorem handleWebSocket_registers
    (pre : list Step) (s : State) (username id : string) :
  steps pre newHub = Ok tt s ->
  exists client s', handleWebSocket true username id s = Ok (Some client) s'
    /\ Client.ID client = id
    /\ Client.Username client = identity_of username
    /\ clients s !! client = None
    /\ clients s' !! client = Some true
    /\ (forall c, is_Some (clients s' !! c) -> c <> client ->
          Client.Send c <> Client.Send client)
    /\ chans s' !! Client.Send client = Some (mkChan (snapshot (locations s)) 256 false)
    /\ locations s' = locations s.
Proof.
  intros Hpre. apply handleWebSocket_new_session.
  pose proof (steps_sound pre newHub newHub_sound) as H. by rewrite Hpre in H.
Qed.

Lemma handleWebSocket_registers_witness :
  exists client s',
    handleWebSocket true "" "id-b"
      (final (steps [Accept true "alice" "id-a";
                     Read alice (ReadMessage (update_frame "alice" 1)); Schedule] newHub))
    = Ok (Some client) s'
    /\ Client.ID client = "id-b"
    /\ Client.Username client = identity_of ""
    /\ clients (final (steps [Accept true "alice" "id-a";
                              Read alice (ReadMessage (update_frame "alice" 1));
                              Schedule] newHub)) !! client = None
    /\ clients s' !! client = Some true
    /\ (forall c, is_Some (clients s' !! c) -> c <> client ->
          Client.Send c <> Client.Send client)
    /\ chans s' !! Client.Send client
       = Some (mkChan
                 (snapshot (locations
                    (final (steps [Accept true "alice" "id-a";
                                   Read alice (ReadMessage (update_frame "alice" 1));
                                   Schedule] newHub))))
                 256 false)
    /\ locations s'
       = locations (final (steps [Accept true "alice" "id-a";
                                  Read alice (ReadMessage (update_frame "alice" 1));
                                  Schedule] newHub)).
Proof.
  apply (handleWebSocket_registers
           [Accept true "alice" "id-a";
            Read alice (ReadMessage (update_frame "alice" 1)); Schedule]).
  vm_compute. reflexivity.
Defined.

(** X10. A failed read ends the session.  In a state of the running
    program, the turn of an inbound loop whose [ReadMessage] fails
    returns to end the loop, the hub having taken the unregister request:
    the session is not in the active set afterwards; if it was active its
    queue is now closed, so that its outbound loop ends too, and, the
    loop of the Hub being parked, its PresenceStore entry is deleted; its
    connection is closed with nothing more written to it. *)
Theorem readPump_error_unregisters
    (pre : list Step) (s : State) (c : Client.t) (unexpected_close : bool) :
  steps pre newHub = Ok tt s ->
  exists s', readPump c (ReadError unexpected_close) s = Ok false s'
    /\ clients s' !! c = None
    /\ (is_Some (clients s !! c) -> is_closed s' c = true)
    /\ (is_Some (clients s !! c) -> loop s = Parked ->
          locations s' = delete (Client.Username c) (locations s))
    /\ (forall k, conns s !! Client.Conn c = Some k ->
          conns s' !! Client.Conn c = Some (mkConn (written k) true)).
Proof.
  intros Hpre.
  assert (Hs : sound s).
  { pose proof (steps_sound pre newHub newHub_sound) as H. by rewrite Hpre in H. }
  set (s0 := if unexpected_close then add_log "WebSocket error" s else s).
  assert (E0 : (if unexpected_close then log "WebSocket error" else mret tt) s = Ok tt s0).
  { subst s0. by destruct unexpected_close. }
  assert (Hs0 : sound s0) by (subst s0; destruct unexpected_close;
                              [by apply add_log_sound|done]).
  assert (Hsame : clients s0 = clients s /\ locations s0 = locations s
                  /\ conns s0 = conns s /\ loop s0 = loop s).
  { subst s0. by destruct unexpected_close. }
  destruct Hsame as (Hc0 & Hloc0 & Hk0 & Hl0).
  destruct (hub_turn_spec s0 Hs0)
    as (s1 & E1 & Hs1 & Hl1 & Hloc1 & Hk1 & _ & _ & Hclosed & _ & Hparked).
  assert (exists s2, run (Unregister c) s1 = Ok tt s2
            /\ clients s2 !! c = None /\ conns s2 = conns s1
            /\ (is_Some (clients s0 !! c) -> is_closed s2 c = true)
            /\ (is_Some (clients s1 !! c) ->
                  locations s2 = delete (Client.Username c) (locations s1)))
    as (s2 & E2 & Hc2 & Hk2 & Hcl2 & Hloc2).
  { pose proof Hs1 as (Hok1 & _ & _).
    pose proof (proj1 (queues_ok_spec s1) Hok1) as (Ho & _ & Hm).
    assert (Hu : unlocked s1 = true).
    { unfold queues_ok in Hok1. apply andb_true_iff in Hok1. tauto. }
    destruct (clients s1 !! c) as [b|] eqn:Hc.
    - pose proof (Ho c ltac:(by eexists)) as Hopen. unfold is_open in Hopen.
      destruct (chans s1 !! Client.Send c) as [q|] eqn:Hq; [|done].
      apply negb_true_iff in Hopen.
      eexists. split; [apply (run_Unregister_active s1 c q); by try eexists|].
      simpl. split_and!; try done.
      + by rewrite lookup_delete_eq.
      + intros _. unfold is_closed. simpl. by rewrite lookup_insert_eq.
    - exists s1. split; [by apply run_Unregister_inactive|].
      split_and!; try done. intros Hact. by apply Hclosed. }
  assert (E : send_event (Unregister c) s0 = Ok tt s2).
  { by rewrite (send_event_after_turn _ s0 s1). }
  assert (Hloc : is_Some (clients s !! c) -> loop s = Parked ->
                 locations s2 = delete (Client.Username c) (locations s)).
  { intros Hact Hp. rewrite <- Hl0 in Hp. specialize (Hparked Hp). subst s1.
    rewrite <- Hloc0. apply Hloc2. by rewrite Hc0. }
  unfold readPump. rewrite (bind_Ok _ _ _ _ _ E0), (bind_Ok _ _ _ _ _ E).
  unfold Conn_Close, mbind, M_bind, mret, M_ret.
  destruct (conns s2 !! Client.Conn c) as [k2|] eqn:Hk.
  - eexists. split; [reflexivity|]. simpl. split_and!; try done.
    + intros Hact. apply Hcl2. by rewrite Hc0.
    + intros k Hks. rewrite lookup_insert_eq.
      rewrite Hk2, Hk1, Hk0, Hks in Hk. by injection Hk as <-.
  - exists s2. split; [reflexivity|]. split_and!; try done.
    + intros Hact. apply Hcl2. by rewrite Hc0.
    + intros k Hks. rewrite Hk2, Hk1, Hk0, Hks in Hk. done.
Qed.

Lemma readPump_error_unregisters_witness :
  exists s',
    readPump alice (ReadError true)
      (final (steps [Accept true "alice" "id-a"; Accept true "bob" "id-b";
                     Read alice (ReadMessage (update_frame "alice" 1)); Schedule] newHub))
    = Ok false s'
    /\ clients s' !! alice = None
    /\ (is_Some (clients (final (steps [Accept true "alice" "id-a"; Accept true "bob" "id-b";
                                        Read alice (ReadMessage (update_frame "alice" 1));
                                        Schedule] newHub)) !! alice) ->
        is_closed s' alice = true)
    /\ (is_Some (clients (final (steps [Accept true "alice" "id-a"; Accept true "bob" "id-b";
                                        Read alice (ReadMessage (update_frame "alice" 1));
                                        Schedule] newHub)) !! alice) ->
        loop (final (steps [Accept true "alice" "id-a"; Accept true "bob" "id-b";
                            Read alice (ReadMessage (update_frame "alice" 1));
                            Schedule] newHub)) = Parked ->
        locations s'
        = delete (Client.Username alice)
            (locations (final (steps [Accept true "alice" "id-a"; Accept true "bob" "id-b";
                                      Read alice (ReadMessage (update_frame "alice" 1));
                                      Schedule] newHub))))
    /\ (forall k,
          conns (final (steps [Accept true "alice" "id-a"; Accept true "bob" "id-b";
                               Read alice (ReadMessage (update_frame "alice" 1));
                               Schedule] newHub)) !! Client.Conn alice = Some k ->
          conns s' !! Client.Conn alice = Some (mkConn (written k) true)).
Proof.
  apply (readPump_error_unregisters
           [Accept true "alice" "id-a"; Accept true "bob" "id-b";
            Read alice (ReadMessage (update_frame "alice" 1)); Schedule]).
  vm_compute. reflexivity.
Defined.

(** ** What the PresenceStore holds *)

Lemma put_elem k v members k' v' :
  (k', v') ∈ put k v members -> (k', v') = (k, v) \/ (k', v') ∈ members.
Proof.
  induction members as [|[k0 v0] rest IH]; simpl.
  - intros H. apply list_elem_of_singleton in H. by left.
  - destruct (String.compare k k0).
    + intros H. apply elem_of_cons in H as [H|H]; [by left|].
      right. by apply elem_of_cons; right.
    + intros H. apply elem_of_cons in H as [H|H]; [by left|by right].
    + intros H. apply elem_of_cons in H as [H|H].
      * right. rewrite H. by apply elem_of_cons; left.
      * destruct (IH H) as [?|?]; [by left|]. right. by apply elem_of_cons; right.
Qed.

Lemma reencode_members_elem members : forall acc k' v',
  (k', v') ∈ fold_left (fun acc kv => put (fst kv) (reencode (snd kv)) acc) members acc ->
  (k', v') ∈ acc \/ exists kv, kv ∈ members /\ v' = reencode (snd kv).
Proof.
  induction members as [|kv rest IH]; intros acc k' v' H; simpl in H.
  - by left.
  - apply IH in H as [H|(kv' & Hin & Heq)].
    + apply put_elem in H as [H|H]; [|by left].
      right. exists kv. split; [by apply elem_of_cons; left|]. by injection H.
    + right. exists kv'. split; [by apply elem_of_cons; right|done].
Qed.

(** The numbers [readPump] hands to the struct decoder are finite. *)
Lemma json_Marshal_Data_numbers data members :
  json_Marshal_Data data = Some (JObject members) ->
  forall k f, (k, JNumber f) ∈ members -> finite f = true.
Proof.
  unfold json_Marshal_Data. destruct (convertible data) eqn:Hc; [|done].
  intros H k f Hin. injection H as H.
  destruct data as [| | | | |ms]; try done. simpl in H. injection H as <-.
  apply reencode_members_elem in Hin as [Hin|([k0 v0] & Hin & Heq)].
  - by apply elem_of_nil in Hin.
  - simpl in Hc, Heq. rewrite forallb_forall in Hc.
    specialize (Hc (k0, v0) ltac:(by apply list_elem_of_In)). simpl in Hc.
    destruct v0; try done. simpl in Heq. by injection Heq as ->.
Qed.

Lemma int64_of_float_range f z :
  int64_of_float f = Some z -> (- 2 ^ 63 <= z < 2 ^ 63)%Z.
Proof.
  unfold int64_of_float. destruct (Prim2SF f) as [| | |sign m e]; try done.
  - intros H. injection H as <-. lia.
  - destruct (if (0 <=? e)%Z then _ else _) as [z0|]; [|done].
    destruct (_ && _) eqn:Hr; [|done]. intros H. injection H as <-.
    apply andb_true_iff in Hr as [H1 H2].
    apply Z.leb_le in H1. apply Z.ltb_lt in H2. lia.
Qed.

Lemma LocationData_members_good members : forall l ok l' ok',
  (forall k f, (k, JNumber f) ∈ members -> finite f = true) ->
  marshals l = true -> (- 2 ^ 63 <= LocationData.Timestamp l < 2 ^ 63)%Z ->
  fold_left LocationData_member members (l, ok) = (l', ok') ->
  marshals l' = true /\ (- 2 ^ 63 <= LocationData.Timestamp l' < 2 ^ 63)%Z.
Proof.
  induction members as [|[k v] rest IH]; intros l ok l' ok' Hfin Hm Hr Hfold.
  - simpl in Hfold. by injection Hfold as <- <-.
  - simpl in Hfold.
    assert (Hrest : forall k f, (k, JNumber f) ∈ rest -> finite f = true).
    { intros k0 f Hin. apply (Hfin k0). by apply elem_of_cons; right. }
    assert (Hv : forall f, v = JNumber f -> finite f = true).
    { intros f ->. apply (Hfin k). by apply elem_of_cons; left. }
    destruct l as [u lat lon ts]. unfold marshals in Hm. simpl in Hm, Hr.
    apply andb_true_iff in Hm as [Hlat Hlon].
    destruct (names k "username");
      [|destruct (names k "latitude");
        [|destruct (names k "longitude"); [|destruct (names k "timestamp")]]];
      destruct v as [| |f| | |]; try (eapply IH; [exact Hrest| | |exact Hfold];
        unfold marshals; simpl; rewrite ?Hlat, ?Hlon, ?(Hv f eq_refl); done).
    destruct (int64_of_float f) as [z|] eqn:Hz.
    + eapply IH; [exact Hrest| | |exact Hfold];
        [unfold marshals; simpl; by rewrite Hlat, Hlon|].
      simpl. by apply (int64_of_float_range f).
    + eapply IH; [exact Hrest| | |exact Hfold];
        [unfold marshals; simpl; by rewrite Hlat, Hlon|done].
Qed.

(** What [readPump] decodes serializes again, and its time stamp is an
    int64. *)
Lemma decoded_record_good data dataBytes l :
  json_Marshal_Data data = Some dataBytes ->
  json_Unmarshal_LocationData dataBytes = Some l ->
  marshals l = true /\ (- 2 ^ 63 <= LocationData.Timestamp l < 2 ^ 63)%Z.
Proof.
  intros Hm Hu. unfold json_Unmarshal_LocationData in Hu.
  destruct dataBytes as [| | | | |members]; try done.
  - injection Hu as <-. split; [reflexivity|simpl; lia].
  - destruct (fold_left _ _ _) as [l' ok] eqn:E. destruct ok; [|done].
    injection Hu as <-.
    apply (LocationData_members_good members _ _ _ _
             (json_Marshal_Data_numbers data members Hm)) in E;
      try done; try (simpl; lia).
Qed.

Section StoreInvariant.

(** A property of the PresenceStore kept by deleting an entry and by
    writing, under an identity, a well-formed record naming it. *)
Variable QS : gmap string LocationData.t -> Prop.

Hypothesis Q_delete : forall store k, QS store -> QS (delete k store).
Hypothesis Q_insert : forall store u l,
  QS store -> well_formed u l -> QS (<[u := l]> store).

Let PS (s : State) : Prop := QS (locations s).

(** Whatever leaves the store alone keeps the property. *)
Local Lemma store_frame {A} (m : M A) :
  (forall s, locations (final (m s)) = locations s) -> preserves PS m.
Proof. intros H s Hs. unfold PS. by rewrite H. Qed.

Local Ltac frame := apply store_frame; intros ?;
  unfold Lock, Unlock, RLock, RUnlock, log, modify, try_send, close, recv,
    try_send_broadcast, WriteMessage, Conn_Close, make_chan;
  repeat case_match; done.

Local Lemma store_broadcastMessage message : preserves PS (broadcastMessage message).
Proof.
  unfold broadcastMessage. destruct (json_Marshal message); [|frame].
  apply preserves_bind; [frame|]. intros []; [apply preserves_ret|frame].
Qed.

Local Lemma store_sendCurrentLocations client : preserves PS (sendCurrentLocations client).
Proof.
  unfold sendCurrentLocations. apply preserves_bind; [frame|]. intros _.
  apply preserves_defer; [frame|].
  apply preserves_bind; [apply preserves_get|]. intros h.
  destruct (0 <? size (locations h))%nat; [|apply preserves_ret].
  destruct (json_Marshal _); [|frame].
  apply preserves_bind; [frame|]. intros []; [apply preserves_ret|frame].
Qed.

Local Lemma store_updateLocation username location :
  well_formed username location -> preserves PS (updateLocation username location).
Proof.
  intros Hwf. unfold updateLocation.
  apply preserves_bind; [frame|]. intros _.
  apply preserves_bind.
  { intros s Hs. unfold PS, modify in *. simpl. by apply Q_insert. }
  intros _. apply preserves_bind; [frame|]. intros _.
  apply store_broadcastMessage.
Qed.

Local Lemma store_range message keys : preserves PS (range keys (deliver message)).
Proof.
  induction keys as [|c rest IH]; simpl; [apply preserves_ret|].
  apply preserves_bind; [|by intros _].
  unfold deliver. apply preserves_bind; [frame|].
  intros []; [apply preserves_ret|].
  apply preserves_bind; [frame|]. intros _. frame.
Qed.

Local Lemma store_run ev : preserves PS (run ev).
Proof.
  unfold run. apply preserves_bind; [frame|]. intros _.
  apply preserves_bind; [|intros _; frame].
  destruct ev as [client|client|message]; simpl.
  - apply preserves_bind; [frame|]. intros _.
    apply preserves_bind; [frame|]. intros _.
    apply preserves_bind; [frame|]. intros _.
    apply preserves_bind; [frame|]. intros _.
    apply preserves_bind; [apply store_sendCurrentLocations|]. intros _.
    apply store_broadcastMessage.
  - apply preserves_bind; [frame|]. intros _.
    apply preserves_bind; [apply preserves_get|]. intros h.
    apply preserves_bind; [|intros _; frame].
    destruct (clients h !! client); [|apply preserves_ret].
    apply preserves_bind; [frame|]. intros _.
    apply preserves_bind; [frame|]. intros _.
    apply preserves_bind.
    { intros s Hs. unfold PS, modify in *. simpl. by apply Q_delete. }
    intros _. apply preserves_bind; [frame|]. intros _.
    apply store_broadcastMessage.
  - apply preserves_bind; [frame|]. intros _.
    apply preserves_bind; [apply preserves_get|]. intros h.
    apply preserves_bind; [apply store_range|]. intros _. frame.
Qed.

Local Lemma store_hub_turn : preserves PS hub_turn.
Proof.
  unfold hub_turn. apply preserves_bind; [apply preserves_get|]. intros h.
  destruct (loop h); [apply preserves_ret|apply store_run|apply preserves_ret].
Qed.

Local Lemma store_send_event ev : preserves PS (send_event ev).
Proof.
  unfold send_event. apply preserves_bind; [apply store_hub_turn|]. intros _.
  apply preserves_bind; [apply preserves_get|]. intros h.
  destruct (loop h); [apply store_run|apply preserves_block|apply preserves_block].
Qed.

Local Lemma store_readPump c r : preserves PS (readPump c r).
Proof.
  unfold readPump. destruct r as [unexpected|message].
  - apply preserves_bind.
    { destruct unexpected; [frame|apply preserves_ret]. }
    intros _. apply preserves_bind; [apply store_send_event|]. intros _.
    apply preserves_bind; [frame|]. intros _. apply preserves_ret.
  - destruct (json_Unmarshal_Message message) as [msg|];
      [|apply preserves_bind; [frame|intros _; apply preserves_ret]].
    destruct (String.eqb _ _); [|apply preserves_ret].
    destruct (json_Marshal_Data _) as [dataBytes|] eqn:Hm;
      [|apply preserves_bind; [frame|intros _; apply preserves_ret]].
    destruct (json_Unmarshal_LocationData dataBytes) as [l|] eqn:Hu;
      [|apply preserves_bind; [frame|intros _; apply preserves_ret]].
    destruct (decoded_record_good _ _ _ Hm Hu) as [Hgood Hrange].
    apply preserves_bind; [frame|]. intros _.
    apply preserves_bind; [|intros _; apply preserves_ret].
    apply store_updateLocation.
    split_and!; destruct l; unfold marshals in *; simpl in *;
      try done; lia.
Qed.

Local Lemma store_handleWebSocket upgrade_ok username id :
  preserves PS (handleWebSocket upgrade_ok username id).
Proof.
  unfold handleWebSocket. destruct upgrade_ok.
  2: { apply preserves_bind; [frame|]. intros _. apply preserves_ret. }
  apply preserves_bind; [apply preserves_get|]. intros h.
  apply preserves_bind; [frame|]. intros _.
  apply preserves_bind; [frame|]. intros _.
  apply preserves_bind; [frame|]. intros send.
  apply preserves_bind; [apply preserves_get|]. intros h'.
  apply preserves_bind; [frame|]. intros _.
  apply preserves_bind; [apply store_send_event|]. intros _. apply preserves_ret.
Qed.

Lemma steps_preserve_store sts : preserves PS (steps sts).
Proof.
  induction sts as [|st rest IH]; simpl; [apply preserves_ret|].
  apply preserves_bind; [|by intros _].
  destruct st as [upgrade_ok username id|c r|c|]; simpl.
  - apply preserves_bind; [apply store_handleWebSocket|]. intros _. apply preserves_ret.
  - apply preserves_bind; [apply store_readPump|]. intros _. apply preserves_ret.
  - apply preserves_bind; [|intros _; apply preserves_ret].
    unfold writePump. apply preserves_bind; [frame|].
    intros [message|].
    + apply preserves_bind; [frame|]. intros _. apply preserves_ret.
    + apply preserves_bind; [frame|]. intros _.
      apply preserves_bind; [frame|]. intros _. apply preserves_ret.
  - apply store_hub_turn.
Qed.

End StoreInvariant.

Lemma program_store_ok sts : store_ok (locations (final (steps sts newHub))).
Proof.
  apply (steps_preserve_store store_ok); unfold store_ok.
  - intros store k H k' l Hl. apply lookup_delete_Some in Hl as [_ Hl]. by apply H.
  - intros store u l H Hwf k l' Hl. destruct (decide (u = k)) as [->|Hne].
    + rewrite lookup_insert_eq in Hl. by injection Hl as <-.
    + rewrite lookup_insert_ne in Hl by done. by apply H.
  - intros k l Hl. simpl in Hl. by rewrite lookup_empty in Hl.
Qed.

Lemma store_ok_marshals store :
  store_ok store ->
  json_Marshal (current_locations store) = Some (Encoded (current_locations store)).
Proof.
  intros H. unfold json_Marshal, current_locations. simpl.
  assert (forallb (fun kv => marshals (snd kv)) (map_to_list store) = true) as ->; [|done].
  apply forallb_forall. intros [k l] Hin.
  apply list_elem_of_In, elem_of_map_to_list in Hin. by destruct (H k l Hin) as (_ & ? & _).
Qed.

(** X11. In every state of the running program, every record of the
    PresenceStore is stored under the username it carries, has finite
    coordinates and a time stamp of the int64 range.  So the snapshot of
    the store always serializes: [sendCurrentLocations] never takes its
    "Error marshaling" branch. *)
Theorem store_holds_well_formed_records (sts : list Step) :
  (forall k l, locations (final (steps sts newHub)) !! k = Some l ->
     LocationData.Username l = k
     /\ finite (LocationData.Latitude l) = true
     /\ finite (LocationData.Longitude l) = true
     /\ (- 2 ^ 63 <= LocationData.Timestamp l < 2 ^ 63)%Z)
  /\ json_Marshal (current_locations (locations (final (steps sts newHub))))
     = Some (Encoded (current_locations (locations (final (steps sts newHub))))).
Proof.
  split.
  - intros k l Hl. destruct (program_store_ok sts k l Hl) as (Hu & Hm & Hr).
    unfold marshals in Hm. apply andb_true_iff in Hm as [? ?].
    split_and!; try done; lia.
  - apply store_ok_marshals, program_store_ok.
Qed.

Lemma steps_app a b s : steps (a ++ b) s = (steps a;; steps b) s.
Proof.
  revert s. induction a as [|st rest IH]; intros s; simpl; [done|].
  unfold mbind, M_bind in *. destruct (step st s); try done.
Qed.

(** X12. What a session reports is what a newcomer is told.  In a state
    of the running program, let a session's inbound loop take a
    [location_update] frame that decodes, and let a connection be
    accepted next: the newcomer's queue then holds one frame, the
    [current_locations] envelope of the store, and in it the reporting
    session's identity maps to the record just sent. *)
Theorem update_reaches_newcomer
    (pre : list Step) (s : State) (c : Client.t) (message : frame) (msg : Inbound.t)
    (dataBytes : JSON) (l : LocationData.t) (username id : string) :
  steps pre newHub = Ok tt s ->
  json_Unmarshal_Message message = Some msg ->
  Inbound.Type_ msg = "location_update" ->
  json_Marshal_Data (Inbound.Data_ msg) = Some dataBytes ->
  json_Unmarshal_LocationData dataBytes = Some l ->
  exists s1 client s' store,
    readPump c (ReadMessage message) s = Ok true s1
    /\ handleWebSocket true username id s1 = Ok (Some client) s'
    /\ queue s' client = [Encoded (current_locations store)]
    /\ store = locations s'
    /\ store !! Client.Username c
       = Some (LocationData.mk (Client.Username c) (LocationData.Latitude l)
                 (LocationData.Longitude l) (LocationData.Timestamp l)).
Proof.
  intros Hpre H1 H2 H3 H4.
  assert (Hs : sound s).
  { pose proof (steps_sound pre newHub newHub_sound) as H. by rewrite Hpre in H. }
  destruct (readPump_sound c (ReadMessage message) s Hs) as (b & s1 & E1 & Hs1).
  assert (b = true /\ locations s1 =
            <[Client.Username c :=
                LocationData.mk (Client.Username c) (LocationData.Latitude l)
                  (LocationData.Longitude l) (LocationData.Timestamp l)]> (locations s))
    as [-> Hloc1].
  { rewrite (readPump_update s c message msg dataBytes l H1 H2 H3 H4) in E1.
    destruct (updateLocation_unlocked
                (add_log ("Received location update from " +:+ Client.Username c) s)
                (Client.Username c)
                (LocationData.mk (Client.Username c) (LocationData.Latitude l)
                   (LocationData.Longitude l) (LocationData.Timestamp l)))
      as (s1' & E & Hloc & _).
    { destruct Hs as (Hok & _). unfold queues_ok in Hok.
      apply andb_true_iff in Hok. tauto. }
    unfold log, modify, mbind, M_bind, mret, M_ret in *. simpl in E1.
    rewrite E in E1. by simplify_eq. }
  assert (Hpre1 : steps (pre ++ [Read c (ReadMessage message)]) newHub = Ok tt s1).
  { rewrite steps_app, (bind_Ok _ _ _ _ _ Hpre). cbn [steps step].
    unfold mbind, M_bind, mret, M_ret. by rewrite E1. }
  destruct (handleWebSocket_new_session s1 username id Hs1)
    as (client & s' & E' & _ & _ & _ & _ & _ & Hq & Hloc').
  exists s1, client, s', (locations s1). split_and!; try done.
  - unfold queue. rewrite Hq. simpl. unfold snapshot.
    assert ((0 <? size (locations s1))%nat = true) as ->.
    { apply Nat.ltb_lt. rewrite Hloc1.
      destruct (decide (size (<[Client.Username c :=
                 LocationData.mk (Client.Username c) (LocationData.Latitude l)
                   (LocationData.Longitude l) (LocationData.Timestamp l)]> (locations s)) = 0))
        as [Hz|Hnz]; [|lia].
      apply map_size_empty_iff in Hz. by apply insert_non_empty in Hz. }
    rewrite store_ok_marshals; [done|].
    pose proof (program_store_ok (pre ++ [Read c (ReadMessage message)])) as H.
    by rewrite Hpre1 in H.
  - by rewrite Hloc1, lookup_insert_eq.
Qed.

Lemma update_reaches_newcomer_witness :
  exists s1 client s' store,
    readPump alice (ReadMessage (update_frame "bob" 1000)) two_sessions = Ok true s1
    /\ handleWebSocket true "carol" "id-c" s1 = Ok (Some client) s'
    /\ queue s' client = [Encoded (current_locations store)]
    /\ store = locations s'
    /\ store !! Client.Username alice
       = Some (LocationData.mk (Client.Username alice)
                 (LocationData.Latitude (LocationData.mk "bob" 35 135 1000))
                 (LocationData.Longitude (LocationData.mk "bob" 35 135 1000))
                 (LocationData.Timestamp (LocationData.mk "bob" 35 135 1000))).
Proof.
  apply (update_reaches_newcomer
           [Accept true "alice" "id-a"; Accept true "bob" "id-b"] two_sessions alice
           (update_frame "bob" 1000)
           (Inbound.mk "location_update"
              (JObject [("username", JString "bob"); ("latitude", JNumber 35);
                        ("longitude", JNumber 135); ("timestamp", JNumber 1000)]))
           (JObject [("latitude", JNumber 35); ("longitude", JNumber 135);
                     ("timestamp", JNumber 1000); ("username", JString "bob")])
           (LocationData.mk "bob" 35 135 1000) "carol" "id-c");
    vm_compute; reflexivity.
Defined.

(** X13. A [location_update] without a payload is an update all the
    same.  When the envelope decodes with the kind [location_update] and
    nothing, or [null], under ["data"], the turn of the inbound loop
    stores for the session a record with latitude 0, longitude 0 and time
    stamp 0 under its identity, and goes on. *)
Theorem update_without_payload_stores_origin
    (s : State) (c : Client.t) (message : frame) :
  unlocked s = true ->
  json_Unmarshal_Message message = Some (Inbound.mk "location_update" JNull) ->
  exists s', readPump c (ReadMessage message) s = Ok true s'
    /\ locations s'
       = <[Client.Username c := LocationData.mk (Client.Username c) 0 0 0]> (locations s).
Proof.
  intros Hu Hm.
  rewrite (readPump_update s c message (Inbound.mk "location_update" JNull) JNull
             (LocationData.mk "" 0 0 0) Hm eq_refl eq_refl eq_refl).
  destruct (updateLocation_unlocked
              (add_log ("Received location update from " +:+ Client.Username c) s)
              (Client.Username c) (LocationData.mk (Client.Username c) 0 0 0))
    as (s' & E & Hloc & _); [done|].
  exists s'. split; [|done].
  unfold log, modify, mbind, M_bind, mret, M_ret in *. simpl in *. by rewrite E.
Qed.

Lemma update_without_payload_stores_origin_witness :
  exists s',
    readPump bob (ReadMessage (Document (JObject [("Type", JString "location_update")])))
      two_sessions = Ok true s'
    /\ locations s' = <[ "bob" := LocationData.mk "bob" 0 0 0 ]> (locations two_sessions).
Proof.
  apply (update_without_payload_stores_origin two_sessions bob
           (Document (JObject [("Type", JString "location_update")])));
    vm_compute; reflexivity.
Defined.

(** X14. A session dropped by the fan-out leaves its PresenceStore entry
    behind.  When a broadcast finds the queue of an active session full,
    the session leaves the active set and the store is not touched; the
    unregister that its inbound loop sends later finds it gone and
    changes nothing, so the store after both is the store before. *)
Theorem dropped_session_keeps_its_entry
    (s : State) (c : Client.t) (message : bytes) :
  queues_ok s = true -> is_Some (clients s !! c) -> is_full s c = true ->
  exists s', (run (Broadcast message);; run (Unregister c)) s = Ok tt s'
    /\ clients s' !! c = None
    /\ locations s' = locations s.
Proof.
  intros Hok Hc Hf.
  destruct (run_Broadcast_spec message s Hok) as (s1 & E1 & Hd & _ & _ & Hs1).
  specialize (Hd c ltac:(by apply active_elem)). unfold delivered in Hd.
  rewrite Hf in Hd. destruct Hd as (Hn & _).
  apply queues_ok_spec in Hok as (_ & _ & Hm).
  exists s1. split_and!; [|done|by rewrite Hs1].
  rewrite (bind_Ok _ _ _ _ _ E1). apply run_Unregister_inactive; [done| |].
  - rewrite Hs1. unfold unlocked. simpl. by rewrite Hm.
  - by rewrite Hs1.
Qed.

Lemma dropped_session_keeps_its_entry_witness :
  exists s',
    (run (Broadcast (Encoded (location_update (position 1000))));;
     run (Unregister alice)) flooded = Ok tt s'
    /\ clients s' !! alice = None
    /\ locations s' = locations flooded.
Proof.
  apply (dropped_session_keeps_its_entry flooded alice).
  - vm_compute; reflexivity.
  - vm_compute. by eexists.
  - vm_compute; reflexivity.
Defined.
